(** * kaggle_utils: ranking and Gini metrics of [utils/metrics_utils.py]

    A shallow embedding of the evaluation metrics of the module and of the
    adapters that plug them into XGBoost and LightGBM training loops.

    Conventions of the embedding.
    - A Python call either returns a value or raises: [result].
    - A finite floating point number is an exact rational ([Q]); rounding
      is not modelled.  numpy's [float64] adds the three non-finite values
      that numpy arithmetic produces instead of raising ([float64]); the
      sign of zero is not modelled, a division of a non-zero number by zero
      takes the sign of the numerator.
    - A Python list, and a one-dimensional numpy array, is a [list]. *)

From Stdlib Require Import String ZArith QArith Qabs Lia Lqa Sorted.
From stdpp Require Import base decidable list.

Local Open Scope Q_scope.

(** ** Outcomes of a Python call *)

Inductive exn : Set :=
| ZeroDivisionError
| IndexError
| ValueError.

Inductive result (A : Type) : Type :=
| Ok (a : A)
| Raise (e : exn).

Arguments Ok {A} a.
Arguments Raise {A} e.

(** Sequencing: an exception ends the computation. *)
#[global] Instance result_bind : MBind result := fun A B f r =>
  match r with
  | Ok a => f a
  | Raise e => Raise e
  end.

(** [[f(x) for x in l]]: the first call that raises ends the comprehension. *)
Fixpoint comprehension {A B : Type} (f : A -> result B) (l : list A)
  : result (list B) :=
  match l with
  | [] => Ok []
  | x :: l' =>
      y ← f x;
      ys ← comprehension f l';
      Ok (y :: ys)
  end.

Definition returns {A : Type} (r : result A) : Prop := exists a, r = Ok a.

(** The call returns a number of the value [q]. *)
Definition value_is (r : result Q) (q : Q) : Prop :=
  match r with
  | Ok v => v == q
  | Raise _ => False
  end.

(** ** Python numbers *)

Definition len {A : Type} (l : list A) : Z := Z.of_nat (length l).

(** [x / y] on Python floats. *)
Definition py_truediv (x y : Q) : result Q :=
  if Qeq_bool y 0 then Raise ZeroDivisionError else Ok (x / y).

(** [l[:k]] for a Python integer [k]: a negative [k] counts from the end. *)
Definition slice_to {A : Type} (l : list A) (k : Z) : list A :=
  if (0 <=? k)%Z then take (Z.to_nat k) l
  else take (Z.to_nat (len l + k)) l.

(** ** numpy numbers *)

Inductive float64 : Set :=
| Fin (q : Q)
| PInf
| NInf
| NaN.

Definition np_neg (x : float64) : float64 :=
  match x with
  | Fin a => Fin (- a)
  | PInf => NInf
  | NInf => PInf
  | NaN => NaN
  end.

Definition np_add (x y : float64) : float64 :=
  match x, y with
  | NaN, _ | _, NaN => NaN
  | Fin a, Fin b => Fin (a + b)
  | PInf, NInf | NInf, PInf => NaN
  | PInf, _ | _, PInf => PInf
  | NInf, _ | _, NInf => NInf
  end.

Definition np_sub (x y : float64) : float64 := np_add x (np_neg y).

(** Sign of a rational as numpy's division sees it, zero counted positive. *)
Definition negative (a : Q) : bool :=
  match a ?= 0 with Lt => true | _ => false end.

Definition signed_inf (neg : bool) : float64 := if neg then NInf else PInf.

Definition np_mul (x y : float64) : float64 :=
  match x, y with
  | NaN, _ | _, NaN => NaN
  | Fin a, Fin b => Fin (a * b)
  | Fin a, PInf | PInf, Fin a =>
      if Qeq_bool a 0 then NaN else signed_inf (negative a)
  | Fin a, NInf | NInf, Fin a =>
      if Qeq_bool a 0 then NaN else signed_inf (negb (negative a))
  | PInf, PInf | NInf, NInf => PInf
  | PInf, NInf | NInf, PInf => NInf
  end.

(** [x / y] on numpy scalars: never raises. *)
Definition np_div (x y : float64) : float64 :=
  match x, y with
  | NaN, _ | _, NaN => NaN
  | Fin a, Fin b =>
      if Qeq_bool b 0
      then if Qeq_bool a 0 then NaN else signed_inf (negative a)
      else Fin (a / b)
  | Fin _, (PInf | NInf) => Fin 0
  | PInf, Fin b => signed_inf (negative b)
  | NInf, Fin b => signed_inf (negb (negative b))
  | (PInf | NInf), (PInf | NInf) => NaN
  end.

Definition np_abs (x : float64) : float64 :=
  match x with
  | Fin a => Fin (Qabs a)
  | PInf | NInf => PInf
  | NaN => NaN
  end.

(** [np.fmax]: the larger operand, a NaN operand is ignored. *)
Definition np_fmax (x y : float64) : float64 :=
  match x, y with
  | NaN, z | z, NaN => z
  | PInf, _ | _, PInf => PInf
  | NInf, z | z, NInf => z
  | Fin a, Fin b => if Qle_bool a b then Fin b else Fin a
  end.

(** Equality of numpy numbers up to the value of the rational. *)
Definition np_eq (x y : float64) : Prop :=
  match x, y with
  | Fin a, Fin b => a == b
  | PInf, PInf | NInf, NInf | NaN, NaN => True
  | _, _ => False
  end.

Definition Qsum (l : list Q) : Q := foldr Qplus 0 l.

Definition np_sum (l : list float64) : float64 := foldr np_add (Fin 0) l.

(** [np.mean]: the sum divided by the count; an empty input gives NaN
    (numpy warns, it does not raise). *)
Definition np_mean (l : list float64) : float64 :=
  np_div (np_sum l) (Fin (inject_Z (len l))).

(** ** Average precision at k *)

Section RankingPrecision.
Context {ID : Type} `{EqDecision ID}.

(** [x in l] *)
Definition py_in (x : ID) (l : list ID) : bool := bool_decide (x ∈ l).

(** The [for ind, pred in enumerate(predicted)] loop of [apk], started
    at index [ind] on the remaining elements [rest], with the state
    [(num_hits, score)]. *)
Fixpoint apk_loop (actual predicted rest : list ID) (ind : nat)
    (st : Q * Q) : Q * Q :=
  match rest with
  | [] => st
  | pred :: rest' =>
      let '(num_hits, score) := st in
      if py_in pred actual && negb (py_in pred (take ind predicted))
      then
        let num_hits := num_hits + 1 in
        apk_loop actual predicted rest' (S ind)
          (num_hits, score + num_hits / (inject_Z (Z.of_nat ind) + 1))
      else apk_loop actual predicted rest' (S ind) (num_hits, score)
  end.

(** [if len(predicted) > k: predicted = predicted[:k]] *)
Definition truncate (predicted : list ID) (k : Z) : list ID :=
  if (len predicted >? k)%Z then slice_to predicted k else predicted.

Definition apk (actual predicted : list ID) (k : Z) : result Q :=
  let predicted := truncate predicted k in
  let '(num_hits, score) := apk_loop actual predicted predicted 0 (0, 0) in
  match actual with
  | [] => Ok 0
  | _ :: _ => py_truediv score (inject_Z (Z.min (len actual) k))
  end.

(** [np.mean([apk(a, p, k) for a, p in zip(actual, predicted)])] *)
Definition mapk (actual predicted : list (list ID)) (k : Z)
  : result float64 :=
  scores ← comprehension (fun ap => apk ap.1 ap.2 k) (zip actual predicted);
  Ok (np_mean (map Fin scores)).

(** The predictions that the loop of [apk] counts as hits, for the analysis
    of the score. *)
Fixpoint hit_items (actual predicted rest : list ID) (ind : nat)
  : list ID :=
  match rest with
  | [] => []
  | p :: rest' =>
      if py_in p actual && negb (py_in p (take ind predicted))
      then p :: hit_items actual predicted rest' (S ind)
      else hit_items actual predicted rest' (S ind)
  end.

End RankingPrecision.

(** ** Gini coefficient *)

(** A numpy array of finite numbers, of one or of two dimensions; a
    two-dimensional array is a list of rows of [ncols] numbers each. *)
Inductive ndarray : Type :=
| Arr1 (a : list Q)
| Arr2 (ncols : nat) (rows : list (list Q)).

Definition rectangular (a : ndarray) : Prop :=
  match a with
  | Arr1 _ => True
  | Arr2 ncols rows => Forall (fun r => length r = ncols) rows
  end.

(** [a[:, j]] *)
Definition column (a : ndarray) (j : nat) : result (list Q) :=
  match a with
  | Arr1 _ => Raise IndexError
  | Arr2 ncols rows =>
      if bool_decide (j < ncols)%nat
      then Ok (map (fun r => nth j r 0) rows)
      else Raise IndexError
  end.

(** [np.argsort] is numpy's: what the embedding knows of it is that it
    returns the indices of its argument in an order that makes the values
    ascend.  The order of equal values is left to the implementation. *)
Class ArgSort : Type := {
  argsort : list Q -> list nat;
  argsort_perm : forall l, argsort l ≡ₚ seq 0 (length l);
  argsort_sorted : forall l,
    StronglySorted (fun i j => nth i l 0 <= nth j l 0) (argsort l)
}.

(** [a[idx]] for an array of indices. *)
Definition take_indices (a : list Q) (idx : list nat) : result (list Q) :=
  comprehension
    (fun i => match a !! i with Some x => Ok x | None => Raise IndexError end)
    idx.

Fixpoint cumsum_from (acc : Q) (l : list Q) : list Q :=
  match l with
  | [] => []
  | x :: l' => (acc + x) :: cumsum_from (acc + x) l'
  end.

(** [a.cumsum()] *)
Definition cumsum (l : list Q) : list Q :=
  match l with
  | [] => []
  | x :: l' => x :: cumsum_from x l'
  end.

Section Gini.
Context {sorting : ArgSort}.

Definition ginic (actual pred : list Q) : result float64 :=
  let n := len actual in
  a_s ← take_indices actual (argsort pred);
  let a_c := cumsum a_s in
  let giniSum :=
    np_sub (np_div (Fin (Qsum a_c)) (Fin (Qsum a_s)))
           (Fin ((inject_Z n + 1) / 2)) in
  Ok (np_div giniSum (Fin (inject_Z n))).

Definition gini_normalizedc (actual : list Q) (pred : ndarray)
  : result float64 :=
  pred ← (match pred with
          | Arr2 _ _ => column pred 1   (* pred.ndim == 2 *)
          | Arr1 p => Ok p
          end);
  g ← ginic actual pred;
  g_max ← ginic actual actual;
  Ok (np_div g g_max).

(** The values that [ginic] reads when nothing is out of bounds. *)
Definition reordered (actual pred : list Q) : list Q :=
  map (fun i => nth i actual 0) (argsort pred).

Definition gini_of (n : Z) (a_s : list Q) : float64 :=
  np_div
    (np_sub (np_div (Fin (Qsum (cumsum a_s))) (Fin (Qsum a_s)))
            (Fin ((inject_Z n + 1) / 2)))
    (Fin (inject_Z n)).

End Gini.

(** A stable insertion sort on indices: an [np.argsort]. *)
Fixpoint insert_by (key : nat -> Q) (i : nat) (s : list nat) : list nat :=
  match s with
  | [] => [i]
  | j :: s' =>
      if Qle_bool (key i) (key j) then i :: s else j :: insert_by key i s'
  end.

Definition argsort_stable (l : list Q) : list nat :=
  foldr (insert_by (fun j => nth j l 0)) [] (seq 0 (length l)).

(** ** Error formulas and framework adapters *)

(** What an adapter hands back to the training loop. *)
#[warnings="-register-all"]
Inductive pyval : Type :=
| PyStr (s : string)
| PyFloat (x : float64)
| PyBool (b : bool)
| PyTuple (items : list pyval)
| PyList (items : list pyval).

(** The training handle: [xgb.DMatrix] or [lgb.Dataset]. *)
Record Dataset : Type := { get_label : list Q }.

(** An elementwise operation on two one-dimensional arrays, with numpy's
    broadcasting of an array of one element. *)
Definition elementwise (f : float64 -> float64 -> float64)
    (x y : list float64) : result (list float64) :=
  if decide (length x = length y) then Ok (zip_with f x y)
  else match x, y with
       | [a], _ => Ok (map (f a) y)
       | _, [b] => Ok (map (fun a => f a b) x)
       | _, _ => Raise ValueError
       end.

Definition mean_absolute_percentage_error (y_true y_pred : list Q)
  : result float64 :=
  let y_true := map Fin y_true in
  let y_pred := map Fin y_pred in
  d ← elementwise np_sub y_true y_pred;
  q ← elementwise np_div (map np_abs d) y_true;
  Ok (np_mean q).

Definition symmetric_mean_absolute_percentage_error (y_true y_pred : list Q)
  : result float64 :=
  let y_true := map Fin y_true in
  let y_pred := map Fin y_pred in
  d ← elementwise np_sub y_true y_pred;
  s ← elementwise np_add y_true y_pred;
  q ← elementwise np_div (map np_abs d) (map (fun v => np_add v (Fin 1)) s);
  Ok (np_mean q).

Section Adapters.
Context {sorting : ArgSort}.

(** numpy's and scikit-learn's routines that the module calls. *)
Variables np_sqrt np_log1p : float64 -> float64.
Variables mean_squared_error roc_auc_score
  : list Q -> list Q -> result float64.

Definition mape_lgb (preds : list Q) (dtrain : Dataset) : result pyval :=
  let actuals := get_label dtrain in
  v ← mean_absolute_percentage_error actuals preds;
  Ok (PyTuple [PyStr "mape"; PyFloat v; PyBool false]).

Definition smape_lgb (preds : list Q) (dtrain : Dataset) : result pyval :=
  let actuals := get_label dtrain in
  v ← symmetric_mean_absolute_percentage_error actuals preds;
  Ok (PyTuple [PyStr "smape"; PyFloat v; PyBool false]).

Definition rmse (y_true y_pred : list Q) : result float64 :=
  mse ← mean_squared_error y_true y_pred;
  Ok (np_sqrt mse).

Definition rmse_lgb (preds : list Q) (dtrain : Dataset) : result pyval :=
  let actuals := get_label dtrain in
  v ← rmse actuals preds;
  Ok (PyTuple [PyStr "rmse"; PyFloat v; PyBool false]).

Definition rmsle_xgb (preds : list Q) (dtrain : Dataset) : result pyval :=
  let actuals := get_label dtrain in
  let clipped_log a := np_log1p (np_fmax (Fin 0) (Fin a)) in
  d ← elementwise np_sub (map clipped_log actuals) (map clipped_log preds);
  let temp_values := map (fun v => np_mul v v) d in
  Ok (PyTuple [PyStr "rmsle"; PyFloat (np_sqrt (np_mean temp_values))]).

Definition gini_xgb (preds : ndarray) (dtrain : Dataset) : result pyval :=
  let actuals := get_label dtrain in
  v ← gini_normalizedc actuals preds;
  Ok (PyList [PyTuple [PyStr "gini"; PyFloat v]]).

Definition gini_lgb (preds : ndarray) (dtrain : Dataset) : result pyval :=
  let actuals := get_label dtrain in
  v ← gini_normalizedc actuals preds;
  Ok (PyTuple [PyStr "gini"; PyFloat v; PyBool true]).

Definition auc_lgb (preds : list Q) (dtrain : Dataset) : result pyval :=
  let actuals := get_label dtrain in
  v ← roc_auc_score actuals preds;
  Ok (PyTuple [PyStr "auc"; PyFloat v; PyBool true]).

End Adapters.

(** The shapes of a custom-metric result. *)
Definition metric_triple (v : pyval) : bool :=
  match v with
  | PyTuple [PyStr _; PyFloat _; PyBool _] => true
  | _ => false
  end.

Definition metric_pair (v : pyval) : bool :=
  match v with
  | PyTuple [PyStr _; PyFloat _] => true
  | _ => false
  end.

(** The call returns, and what it returns has the shape [shape]. *)
Definition returns_with (shape : pyval -> bool) (r : result pyval) : Prop :=
  exists v, r = Ok v ∧ shape v = true.

Definition triple_or_triples (v : pyval) : bool :=
  metric_triple v ||
  match v with
  | PyList items | PyTuple items => forallb metric_triple items
  | _ => false
  end.

(** ** The ranking scorer as the specification words it

    [averagePrecisionAtK]: the walk over the positions of the truncated
    sequence, read off the specification; compared with [apk] below. *)

Section RankingPrecisionSpec.
Context {ID : Type} `{EqDecision ID}.

(** "Truncate predicted to its first k elements if longer" *)
Definition spec_truncated (predicted : list ID) (k : Z) : list ID :=
  if (k <? len predicted)%Z then take (Z.to_nat k) predicted else predicted.

(** "predicted[i] is a member of actual AND predicted[i] does not appear
    earlier in the truncated predicted sequence" *)
Definition spec_hit (actual predicted : list ID) (i : nat) : bool :=
  match predicted !! i with
  | Some p => bool_decide (p ∈ actual ∧ p ∉ take i predicted)
  | None => false
  end.

(** "increment numHits and add numHits / (i+1) to score" *)
Definition spec_step (actual predicted : list ID) (st : Q * Q) (i : nat)
  : Q * Q :=
  if spec_hit actual predicted i
  then (st.1 + 1, st.2 + (st.1 + 1) / (inject_Z (Z.of_nat i) + 1))
  else st.

Definition spec_score (actual predicted : list ID) : Q :=
  (foldl (spec_step actual predicted) (0, 0) (seq 0 (length predicted))).2.

(** "return score / min(|actual|, k)" *)
Definition averagePrecisionAtK (actual predicted : list ID) (k : Z) : Q :=
  spec_score actual (spec_truncated predicted k)
  / inject_Z (Z.min (len actual) k).

End RankingPrecisionSpec.

(** ** The mean and the raw Gini statistic as the specification words them *)

(** The mean of the specification: the sum over the count. *)
Definition arithmetic_mean (l : list Q) : Q := Qsum l / inject_Z (len l).

(** "reorder actual by ascending order of predicted": the pairs of an
    outcome and its score, in an order that makes the scores ascend. *)
Definition ascending_reordering (actual predicted reordering : list Q)
  : Prop :=
  exists pairs : list (Q * Q),
    pairs ≡ₚ zip actual predicted ∧
    StronglySorted (fun x y => x.2 <= y.2) pairs ∧
    reordering = map fst pairs.

(** "(cumulative_sum.sum() / actual_sum) - (n+1)/2, then divided by n" *)
Definition rawGini (actual reordering : list Q) : float64 :=
  let n := inject_Z (len actual) in
  let cumulative_sum := cumsum reordering in
  let actual_sum := Qsum actual in
  np_div
    (np_sub (np_div (Fin (Qsum cumulative_sum)) (Fin actual_sum))
            (Fin ((n + 1) / 2)))
    (Fin n).

(** A sequence all of whose elements have one value. *)
Definition constant (l : list Q) : Prop :=
  forall x y, x ∈ l -> y ∈ l -> x == y.

(** Twice the sum of the cumulative sums, less [(n+1)] times the sum. *)
Definition gini_numerator (s : list Q) : Q :=
  2 * Qsum (cumsum s) - (inject_Z (len s) + 1) * Qsum s.

(** ** Terms of the error formulas

    What [np.fmax(0., x)] leaves of a finite number, and the terms that the
    percentage errors average, for the analysis of the formulas. *)

Definition clip_at_zero (a : Q) : Q := if Qle_bool 0 a then a else 0.

Definition mape_term (t p : Q) : float64 :=
  np_div (np_abs (np_sub (Fin t) (Fin p))) (Fin t).

Definition smape_term (t p : Q) : float64 :=
  np_div (np_abs (np_sub (Fin t) (Fin p)))
         (np_add (np_add (Fin t) (Fin p)) (Fin 1)).

(** ** The routines of scikit-learn

    The adapter hands back [wrap v] for the value [v] that the routine
    returns, and raises what the routine raises. *)

Definition wraps (r : result float64) (wrap : float64 -> pyval)
    (out : result pyval) : Prop :=
  match r with
  | Ok v => out = Ok (wrap v)
  | Raise e => out = Raise e
  end.

(** A reading of [mean_squared_error] and of the binary [roc_auc_score],
    to run the adapters on examples; the theorems take the routines as
    parameters. *)

Definition mean_squared_error_reading (y_true y_pred : list Q)
  : result float64 :=
  if decide (length y_true = length y_pred)
  then Ok (np_mean
             (zip_with (fun t p => Fin ((t - p) * (t - p))) y_true y_pred))
  else Raise ValueError.

Definition auc_pair_score (pos neg : Q) : Q :=
  if Qeq_bool pos neg then 1 # 2 else if Qle_bool neg pos then 1 else 0.

Definition roc_auc_score_reading (y_true y_score : list Q)
  : result float64 :=
  if decide (length y_true = length y_score)
  then
    let labelled := zip y_true y_score in
    let pos :=
      map snd (List.filter (fun x => negb (Qeq_bool (fst x) 0)) labelled) in
    let neg :=
      map snd (List.filter (fun x => Qeq_bool (fst x) 0) labelled) in
    match pos, neg with
    | [], _ | _, [] => Raise ValueError
    | _, _ =>
        Ok (Fin (Qsum (flat_map (fun p => map (auc_pair_score p) neg) pos)
                 / inject_Z (len pos * len neg)))
    end
  else Raise ValueError.

(** ** Sample data *)

(** The outcomes and scores of the specification's Gini example. *)
Definition sample_actual : list Q := [0; 0; 1; 0; 1].
Definition sample_scores : list Q := [0.1; 0.4; 0.35; 0.8; 0.2].

(** ** The stable sort is an [ArgSort] *)

Lemma insert_by_perm key i s : insert_by key i s ≡ₚ i :: s.
Proof.
  induction s as [|j s IH]; simpl; [done|].
  destruct (Qle_bool (key i) (key j)); [done|].
  rewrite IH. apply Permutation_swap.
Qed.

Lemma insert_by_sorted key i s :
  StronglySorted (fun a b => key a <= key b) s ->
  StronglySorted (fun a b => key a <= key b) (insert_by key i s).
Proof.
  induction s as [|j s IH]; simpl; intros Hs.
  - repeat constructor.
  - inversion Hs as [|? ? Hs' Hj]; subst.
    destruct (Qle_bool (key i) (key j)) eqn:E.
    + apply Qle_bool_iff in E. constructor; [done|].
      constructor; [done|].
      eapply Forall_impl; [exact Hj|]. simpl. intros k Hk. lra.
    + assert (key j <= key i) as Hji.
      { destruct (Qlt_le_dec (key j) (key i)) as [Hlt|Hle]; [lra|].
        apply Qle_bool_iff in Hle. congruence. }
      constructor; [auto|].
      rewrite insert_by_perm. constructor; done.
Qed.

Lemma argsort_stable_perm l : argsort_stable l ≡ₚ seq 0 (length l).
Proof.
  unfold argsort_stable. generalize (seq 0 (length l)) as idx.
  induction idx as [|i idx IH]; simpl; [done|].
  by rewrite insert_by_perm, IH.
Qed.

Lemma argsort_stable_sorted l :
  StronglySorted (fun i j => nth i l 0 <= nth j l 0) (argsort_stable l).
Proof.
  unfold argsort_stable. generalize (seq 0 (length l)) as idx.
  induction idx as [|i idx IH]; simpl; [constructor|].
  by apply insert_by_sorted.
Qed.

Definition stable_argsort : ArgSort := {|
  argsort := argsort_stable;
  argsort_perm := argsort_stable_perm;
  argsort_sorted := argsort_stable_sorted
|}.

(** ** Arithmetic helpers *)

Lemma inject_Z_S (n : nat) :
  inject_Z (Z.of_nat (S n)) == inject_Z (Z.of_nat n) + 1.
Proof.
  rewrite Nat2Z.inj_succ. unfold Z.succ. rewrite inject_Z_plus. reflexivity.
Qed.

Lemma inject_Z_nat_nonneg (n : nat) : 0 <= inject_Z (Z.of_nat n).
Proof. change 0 with (inject_Z 0). rewrite <- Zle_Qle. lia. Qed.

Lemma inject_Z_nat_le (n m : nat) :
  (n <= m)%nat -> inject_Z (Z.of_nat n) <= inject_Z (Z.of_nat m).
Proof. intros Hnm. rewrite <- Zle_Qle. lia. Qed.

Lemma Qdiv_unit_interval (a b : Q) :
  0 <= a -> a <= b -> 0 < b -> 0 <= a / b ∧ a / b <= 1.
Proof.
  intros Ha Hab Hb. split.
  - apply Qle_shift_div_l; [done|]. lra.
  - apply Qle_shift_div_r; [done|]. lra.
Qed.

Lemma Qeq_bool_false_pos (a : Q) : 0 < a -> Qeq_bool a 0 = false.
Proof.
  intros Ha. destruct (Qeq_bool a 0) eqn:E; [|done].
  apply Qeq_bool_iff in E. lra.
Qed.

(** ** Properties of the ranking scorer *)

Section RankingPrecisionFacts.
Context {ID : Type} `{EqDecision ID}.
Implicit Types actual predicted rest : list ID.

Lemma truncate_spec predicted k :
  (0 <= k)%Z -> truncate predicted k = spec_truncated predicted k.
Proof.
  intros Hk. unfold truncate, spec_truncated, slice_to.
  rewrite Z.gtb_ltb. destruct (k <? len predicted)%Z; [|done].
  by destruct (Z.leb_spec 0 k); [|lia].
Qed.

Lemma truncate_length predicted k :
  (0 <= k)%Z -> (len (truncate predicted k) <= k)%Z.
Proof.
  intros Hk. unfold truncate, slice_to, len.
  destruct (Z.gtb_spec (Z.of_nat (length predicted)) k) as [Hlt|Hge]; [|done].
  destruct (Z.leb_spec 0 k); [|lia].
  rewrite length_take. lia.
Qed.

(** The loop of [apk] is the walk over the positions. *)
Lemma apk_loop_walk actual predicted rest ind st :
  (forall j, rest !! j = predicted !! (ind + j)%nat) ->
  apk_loop actual predicted rest ind st
  = foldl (spec_step actual predicted) st (seq ind (length rest)).
Proof.
  revert ind st. induction rest as [|p rest IH]; intros ind st Hrest; [done|].
  destruct st as [num_hits score]. simpl.
  assert (predicted !! ind = Some p) as Hp.
  { specialize (Hrest 0%nat). rewrite Nat.add_0_r in Hrest. by rewrite <- Hrest. }
  assert (forall j, rest !! j = predicted !! (S ind + j)%nat) as Hrest'.
  { intros j. specialize (Hrest (S j)). simpl in Hrest.
    by rewrite Hrest, Nat.add_succ_r. }
  unfold spec_step at 2, spec_hit, py_in. rewrite Hp. simpl.
  destruct (decide (p ∈ actual)) as [Ha|Ha];
    destruct (decide (p ∈ take ind predicted)) as [Hd|Hd].
  - rewrite !bool_decide_eq_true_2 by done. simpl.
    rewrite bool_decide_eq_false_2 by tauto. by apply IH.
  - rewrite bool_decide_eq_true_2 by done.
    rewrite bool_decide_eq_false_2 by done. simpl.
    rewrite bool_decide_eq_true_2 by done. by apply IH.
  - rewrite bool_decide_eq_false_2 by done. simpl.
    rewrite bool_decide_eq_false_2 by tauto. by apply IH.
  - rewrite bool_decide_eq_false_2 by done. simpl.
    rewrite bool_decide_eq_false_2 by tauto. by apply IH.
Qed.

Lemma hit_items_length actual predicted rest ind :
  (length (hit_items actual predicted rest ind) <= length rest)%nat.
Proof.
  revert ind. induction rest as [|p rest IH]; intros ind; simpl; [lia|].
  destruct (_ && _); simpl; specialize (IH (S ind)); lia.
Qed.

Lemma hit_items_fresh actual predicted rest pre :
  predicted = pre ++ rest ->
  NoDup (hit_items actual predicted rest (length pre)) ∧
  (forall x, x ∈ hit_items actual predicted rest (length pre) ->
             (x ∉ pre) ∧ (x ∈ actual)).
Proof.
  revert pre. induction rest as [|p rest IH]; intros pre Hpre; simpl.
  { split; [constructor|]. intros x Hx. inversion Hx. }
  destruct (IH (pre ++ [p])) as [Hnd Hin].
  { by rewrite <- app_assoc. }
  rewrite length_app in Hnd, Hin. simpl in Hnd, Hin.
  rewrite Nat.add_1_r in Hnd, Hin.
  assert (take (length pre) predicted = pre) as Htake.
  { subst predicted. by rewrite take_app_length. }
  rewrite Htake. unfold py_in.
  destruct (decide (p ∈ actual)) as [Ha|Ha];
    destruct (decide (p ∈ pre)) as [Hd|Hd];
    rewrite ?(bool_decide_eq_true_2 _ Ha), ?(bool_decide_eq_false_2 _ Ha),
      ?(bool_decide_eq_true_2 _ Hd), ?(bool_decide_eq_false_2 _ Hd); simpl.
  2: { split.
       - constructor; [|done]. intros Hp. apply Hin in Hp as [Hp _].
         apply Hp, elem_of_app. right. by apply list_elem_of_singleton.
       - intros x Hx. apply elem_of_cons in Hx as [->|Hx]; [done|].
         apply Hin in Hx as [Hx ?]. split; [|done].
         intros Hx'. apply Hx, elem_of_app. by left. }
  all: split; [done|]; intros x Hx; apply Hin in Hx as [Hx ?];
    split; [|done]; intros Hx'; apply Hx, elem_of_app; by left.
Qed.

Lemma hit_items_bound actual predicted :
  (length (hit_items actual predicted predicted 0)
   <= Nat.min (length actual) (length predicted))%nat.
Proof.
  destruct (hit_items_fresh actual predicted predicted []) as [Hnd Hin]; [done|].
  simpl in *. apply Nat.min_glb; [|apply hit_items_length].
  apply submseteq_length, NoDup_submseteq; [done|]. intros x Hx.
  by apply Hin.
Qed.

Lemma apk_loop_bounds actual predicted rest ind num_hits score :
  0 <= num_hits -> num_hits <= inject_Z (Z.of_nat ind) ->
  let st := apk_loop actual predicted rest ind (num_hits, score) in
  let h := inject_Z (Z.of_nat (length (hit_items actual predicted rest ind))) in
  st.1 == num_hits + h ∧ score <= st.2 ∧ st.2 <= score + h.
Proof.
  revert ind num_hits score.
  induction rest as [|p rest IH]; intros ind num_hits score Hlo Hhi; simpl.
  { change (inject_Z (Z.of_nat 0)) with 0. lra. }
  pose proof (inject_Z_nat_nonneg ind) as Hind.
  destruct (_ && _); simpl.
  - destruct (Qdiv_unit_interval (num_hits + 1) (inject_Z (Z.of_nat ind) + 1))
      as [Ht0 Ht1]; [lra..|].
    destruct (IH (S ind) (num_hits + 1)
                (score + (num_hits + 1) / (inject_Z (Z.of_nat ind) + 1)))
      as (Hn & Hs0 & Hs1).
    { lra. }
    { rewrite inject_Z_S. lra. }
    rewrite inject_Z_S. lra.
  - apply IH; [done|]. rewrite inject_Z_S. lra.
Qed.

Lemma apk_loop_score actual predicted :
  (apk_loop actual predicted predicted 0 (0, 0)).2
  = spec_score actual predicted.
Proof. unfold spec_score. by rewrite apk_loop_walk. Qed.

Lemma apk_score_bounds actual predicted :
  0 <= spec_score actual predicted ∧
  spec_score actual predicted
  <= inject_Z (Z.of_nat (Nat.min (length actual) (length predicted))).
Proof.
  rewrite <- apk_loop_score.
  destruct (apk_loop_bounds actual predicted predicted 0 0 0)
    as (_ & H0 & H1); [done..|].
  split; [done|]. eapply Qle_trans; [exact H1|]. rewrite Qplus_0_l.
  apply inject_Z_nat_le, hit_items_bound.
Qed.

Lemma apk_nil predicted k : apk [] predicted k = Ok 0.
Proof. unfold apk. by destruct (apk_loop _ _ _ _ _). Qed.

Lemma min_len_pos actual k :
  (0 < k)%Z -> actual ≠ [] -> 0 < inject_Z (Z.min (len actual) k).
Proof.
  intros Hk Ha. change 0 with (inject_Z 0). rewrite <- Zlt_Qlt.
  destruct actual; [done|]. unfold len. simpl length. lia.
Qed.

Lemma apk_value actual predicted k :
  (0 < k)%Z -> actual ≠ [] ->
  apk actual predicted k = Ok (averagePrecisionAtK actual predicted k).
Proof.
  intros Hk Ha. unfold apk, averagePrecisionAtK.
  rewrite truncate_spec by lia.
  rewrite <- apk_loop_score.
  destruct (apk_loop _ _ _ _ _) as [num_hits score]. simpl.
  destruct actual as [|a actual]; [done|].
  unfold py_truediv. by rewrite Qeq_bool_false_pos by by apply min_len_pos.
Qed.

Lemma averagePrecisionAtK_bounds actual predicted k :
  (0 < k)%Z -> actual ≠ [] ->
  0 <= averagePrecisionAtK actual predicted k ∧
  averagePrecisionAtK actual predicted k <= 1.
Proof.
  intros Hk Ha. unfold averagePrecisionAtK.
  destruct (apk_score_bounds actual (spec_truncated predicted k)) as [H0 H1].
  apply Qdiv_unit_interval; [done| |by apply min_len_pos].
  eapply Qle_trans; [exact H1|]. rewrite <- Zle_Qle.
  pose proof (truncate_length predicted k) as Hlen.
  rewrite truncate_spec in Hlen by lia. unfold len in *. lia.
Qed.

Lemma apk_returns actual predicted k :
  (0 < k)%Z -> returns (apk actual predicted k).
Proof.
  intros Hk. destruct actual as [|a actual].
  - eexists. apply apk_nil.
  - eexists. by apply apk_value.
Qed.

End RankingPrecisionFacts.

(** ** Comprehensions and means *)

Lemma comprehension_returns {A B : Type} (f : A -> result B) (l : list A) :
  (forall x, x ∈ l -> returns (f x)) ->
  exists ys, comprehension f l = Ok ys ∧ Forall2 (fun x y => f x = Ok y) l ys.
Proof.
  induction l as [|x l IH]; intros Hf; simpl.
  { exists []. by split. }
  destruct (Hf x) as [y Hy]; [by left|].
  destruct IH as (ys & Hys & Hall).
  { intros z Hz. apply Hf. by right. }
  exists (y :: ys). rewrite Hy, Hys. split; [done|]. by constructor.
Qed.

Lemma np_sum_finite (l : list Q) : np_sum (map Fin l) = Fin (Qsum l).
Proof.
  induction l as [|x l IH]; [done|].
  change (np_sum (map Fin (x :: l))) with (np_add (Fin x) (np_sum (map Fin l))).
  by rewrite IH.
Qed.

Lemma np_mean_finite (l : list Q) :
  l ≠ [] -> np_mean (map Fin l) = Fin (arithmetic_mean l).
Proof.
  intros Hl. unfold np_mean, arithmetic_mean, len.
  rewrite np_sum_finite, length_map. simpl.
  rewrite Qeq_bool_false_pos; [done|].
  change 0 with (inject_Z 0). rewrite <- Zlt_Qlt. destruct l; [done|].
  simpl length. lia.
Qed.

Lemma zip_take_min {A B : Type} (l1 : list A) (l2 : list B) :
  zip l1 l2
  = zip (take (Nat.min (length l1) (length l2)) l1)
        (take (Nat.min (length l1) (length l2)) l2).
Proof.
  revert l2. induction l1 as [|x l1 IH]; intros [|y l2]; simpl; try done.
  by rewrite <- IH.
Qed.

(** ** Properties of the mean over queries *)

Section MeanAveragePrecisionFacts.
Context {ID : Type} `{EqDecision ID}.
Implicit Types actuals predicteds : list (list ID).

Lemma mapk_scores actuals predicteds k :
  (0 < k)%Z ->
  exists scores,
    Forall2 (fun ap s => apk ap.1 ap.2 k = Ok s)
            (zip actuals predicteds) scores ∧
    mapk actuals predicteds k = Ok (np_mean (map Fin scores)).
Proof.
  intros Hk.
  destruct (comprehension_returns (fun ap => apk ap.1 ap.2 k)
              (zip actuals predicteds)) as (scores & Hc & Hall).
  { intros ap _. by apply apk_returns. }
  exists scores. split; [done|]. unfold mapk. by rewrite Hc.
Qed.

Lemma mapk_zip_prefix actuals predicteds k :
  let m := Nat.min (length actuals) (length predicteds) in
  mapk actuals predicteds k = mapk (take m actuals) (take m predicteds) k.
Proof. intros m. unfold mapk. subst m. by rewrite <- zip_take_min. Qed.

Lemma mapk_no_pairs actuals predicteds k :
  actuals = [] ∨ predicteds = [] -> mapk actuals predicteds k = Ok NaN.
Proof. intros [-> | ->]; [done|]. by destruct actuals. Qed.

End MeanAveragePrecisionFacts.

(** ** Indexing with an array of indices *)

Lemma take_indices_ok (a : list Q) (idx : list nat) :
  Forall (fun i => (i < length a)%nat) idx ->
  take_indices a idx = Ok (map (fun i => nth i a 0) idx).
Proof.
  unfold take_indices. induction 1 as [|i idx Hi _ IH]; simpl; [done|].
  apply lookup_lt_is_Some_2 in Hi as [x Hx].
  rewrite Hx, (nth_lookup_Some _ _ _ _ Hx). simpl. by rewrite IH.
Qed.

Lemma take_indices_out_of_bounds (a : list Q) (idx : list nat) (i : nat) :
  i ∈ idx -> (length a <= i)%nat -> take_indices a idx = Raise IndexError.
Proof.
  unfold take_indices. intros Hin Hi.
  induction idx as [|j idx IH]; simpl; [inversion Hin|].
  destruct (a !! j) as [x|] eqn:Hj; [|done]. simpl.
  apply elem_of_cons in Hin as [->|Hin].
  - apply lookup_lt_Some in Hj. lia.
  - by rewrite IH.
Qed.

Section GiniFacts.
Context {sorting : ArgSort}.

Lemma argsort_elem_of (l : list Q) (i : nat) :
  i ∈ argsort l ↔ (i < length l)%nat.
Proof. rewrite (argsort_perm l), elem_of_seq. lia. Qed.

Lemma argsort_length (l : list Q) : length (argsort l) = length l.
Proof. by rewrite (argsort_perm l), length_seq. Qed.

Lemma ginic_within_bounds (actual pred : list Q) :
  (length pred <= length actual)%nat ->
  ginic actual pred = Ok (gini_of (len actual) (reordered actual pred)).
Proof.
  intros Hlen. unfold ginic. rewrite take_indices_ok; [reflexivity|].
  apply Forall_forall. intros i Hi. apply argsort_elem_of in Hi. lia.
Qed.

Lemma ginic_out_of_bounds (actual pred : list Q) :
  (length actual < length pred)%nat ->
  ginic actual pred = Raise IndexError.
Proof.
  intros Hlen. unfold ginic.
  rewrite (take_indices_out_of_bounds _ _ (length actual)); [reflexivity| |done].
  by apply argsort_elem_of.
Qed.

Lemma gini_normalizedc_within_bounds (actual pred : list Q) :
  (length pred <= length actual)%nat ->
  gini_normalizedc actual (Arr1 pred)
  = Ok (np_div (gini_of (len actual) (reordered actual pred))
               (gini_of (len actual) (reordered actual actual))).
Proof.
  intros Hlen. unfold gini_normalizedc. simpl.
  rewrite (ginic_within_bounds actual pred) by done.
  rewrite (ginic_within_bounds actual actual) by done. reflexivity.
Qed.

Lemma gini_normalizedc_out_of_bounds (actual pred : list Q) :
  (length actual < length pred)%nat ->
  gini_normalizedc actual (Arr1 pred) = Raise IndexError.
Proof.
  intros Hlen. unfold gini_normalizedc. simpl.
  rewrite (ginic_out_of_bounds actual pred) by done. reflexivity.
Qed.

Lemma gini_normalizedc_second_column (actual : list Q) ncols rows :
  (1 < ncols)%nat ->
  gini_normalizedc actual (Arr2 ncols rows)
  = gini_normalizedc actual (Arr1 (map (fun r => nth 1 r 0) rows)).
Proof.
  intros Hc. unfold gini_normalizedc, column.
  rewrite bool_decide_eq_true_2 by done. reflexivity.
Qed.

End GiniFacts.

(** ** Sums, cumulative sums and reorderings *)

Lemma Qsum_perm (l1 l2 : list Q) : l1 ≡ₚ l2 -> Qsum l1 == Qsum l2.
Proof.
  induction 1 as [|x l1 l2 _ IH|x y l|l1 l2 l3 _ IH1 _ IH2]; simpl.
  - reflexivity.
  - by rewrite IH.
  - ring.
  - by rewrite IH1.
Qed.

Lemma cumsum_from_shift (acc : Q) (l : list Q) :
  Qsum (cumsum_from acc l)
  == inject_Z (len l) * acc + Qsum (cumsum_from 0 l).
Proof.
  revert acc. induction l as [|x l IH]; intros acc.
  { simpl. change (inject_Z (len [])) with 0. ring. }
  change (Qsum (cumsum_from acc (x :: l)))
    with (acc + x + Qsum (cumsum_from (acc + x) l)).
  change (Qsum (cumsum_from 0 (x :: l)))
    with (0 + x + Qsum (cumsum_from (0 + x) l)).
  rewrite (IH (acc + x)), (IH (0 + x)).
  unfold len. simpl length. rewrite inject_Z_S. ring.
Qed.

Lemma Qsum_cumsum_cons (x : Q) (l : list Q) :
  Qsum (cumsum (x :: l))
  == (inject_Z (len l) + 1) * x + Qsum (cumsum l).
Proof.
  change (Qsum (cumsum (x :: l))) with (x + Qsum (cumsum_from x l)).
  rewrite cumsum_from_shift. destruct l as [|y l].
  { simpl. change (inject_Z (len [])) with 0. ring. }
  change (Qsum (cumsum_from 0 (y :: l)))
    with (0 + y + Qsum (cumsum_from (0 + y) l)).
  change (Qsum (cumsum (y :: l))) with (y + Qsum (cumsum_from y l)).
  rewrite (cumsum_from_shift (0 + y)), (cumsum_from_shift y). ring.
Qed.

Lemma reorder_by_indices {A : Type} (f : nat -> A) (l : list A) (idx : list nat) :
  (forall i x, l !! i = Some x -> f i = x) ->
  idx ≡ₚ seq 0 (length l) -> map f idx ≡ₚ l.
Proof.
  intros Hf Hidx. rewrite Hidx. clear idx Hidx.
  assert (map f (seq 0 (length l)) = l) as ->; [|done].
  apply list_eq. intros i. rewrite list_lookup_fmap.
  destruct (l !! i) as [x|] eqn:Hi.
  - rewrite lookup_seq_lt by (by eapply lookup_lt_Some). simpl.
    f_equal. by apply Hf.
  - rewrite lookup_seq_ge; [done|]. by apply lookup_ge_None.
Qed.

Lemma StronglySorted_map {A B : Type} (R : B -> B -> Prop) (f : A -> B)
    (l : list A) :
  StronglySorted (fun x y => R (f x) (f y)) l -> StronglySorted R (map f l).
Proof.
  induction 1 as [|x l _ IH Hx]; simpl; constructor; [done|].
  apply Forall_forall. intros y Hy. apply list_elem_of_fmap in Hy as (z & -> & Hz).
  rewrite Forall_forall in Hx. by apply Hx.
Qed.

(** ** numpy arithmetic respects the value of its operands *)

Lemma Qeq_bool_proper (a b : Q) : a == b -> Qeq_bool a 0 = Qeq_bool b 0.
Proof.
  intros Hab. destruct (Qeq_bool a 0) eqn:Ea, (Qeq_bool b 0) eqn:Eb; try done.
  - apply Qeq_bool_iff in Ea. apply Qeq_bool_neq in Eb. destruct Eb. lra.
  - apply Qeq_bool_iff in Eb. apply Qeq_bool_neq in Ea. destruct Ea. lra.
Qed.

Lemma negative_proper (a b : Q) : a == b -> negative a = negative b.
Proof. intros Hab. unfold negative. by rewrite Hab. Qed.

Lemma np_div_finite (a b : Q) :
  np_div (Fin a) (Fin b)
  = if Qeq_bool b 0
    then if Qeq_bool a 0 then NaN else signed_inf (negative a)
    else Fin (a / b).
Proof. reflexivity. Qed.

Lemma np_eq_refl (x : float64) : np_eq x x.
Proof. by destruct x. Qed.

Lemma np_neg_proper (x x' : float64) : np_eq x x' -> np_eq (np_neg x) (np_neg x').
Proof. destruct x, x'; simpl; try done. intros ->. reflexivity. Qed.

Lemma np_add_proper (x x' y y' : float64) :
  np_eq x x' -> np_eq y y' -> np_eq (np_add x y) (np_add x' y').
Proof.
  destruct x, x', y, y'; simpl; try done. intros -> ->. reflexivity.
Qed.

Lemma np_sub_proper (x x' y y' : float64) :
  np_eq x x' -> np_eq y y' -> np_eq (np_sub x y) (np_sub x' y').
Proof. intros Hx Hy. by apply np_add_proper, np_neg_proper. Qed.

Lemma np_div_proper (x x' y y' : float64) :
  np_eq x x' -> np_eq y y' -> np_eq (np_div x y) (np_div x' y').
Proof.
  destruct x as [a| | |], x' as [a'| | |], y as [b| | |], y' as [b'| | |];
    simpl; try done.
  - intros Ha Hb.
    rewrite (Qeq_bool_proper _ _ Ha), (Qeq_bool_proper _ _ Hb),
      (negative_proper _ _ Ha).
    destruct (Qeq_bool b' 0) eqn:E.
    + destruct (Qeq_bool a' 0); [done|]. by destruct (negative a').
    + simpl. apply Qeq_bool_neq in E. rewrite Ha, Hb. reflexivity.
  - intros _ Hb. rewrite (negative_proper _ _ Hb). by destruct (negative b').
  - intros _ Hb. rewrite (negative_proper _ _ Hb). by destruct (negative b').
Qed.

Section GiniSpecFacts.
Context {sorting : ArgSort}.

Lemma reordered_perm (actual pred : list Q) :
  length actual = length pred -> reordered actual pred ≡ₚ actual.
Proof.
  intros Hlen. apply reorder_by_indices.
  - intros i x Hx. by apply nth_lookup_Some.
  - rewrite Hlen. apply argsort_perm.
Qed.

Lemma reordered_ascending (actual pred : list Q) :
  length actual = length pred ->
  ascending_reordering actual pred (reordered actual pred).
Proof.
  intros Hlen.
  exists (map (fun i => (nth i actual 0, nth i pred 0)) (argsort pred)).
  split; [|split].
  - apply reorder_by_indices.
    + intros i [a p] Hi.
      apply lookup_zip_with_Some in Hi as (a' & p' & [= -> ->] & Ha & Hp).
      by rewrite (nth_lookup_Some _ _ _ _ Ha), (nth_lookup_Some _ _ _ _ Hp).
    + rewrite length_zip_with_l_eq by done. rewrite Hlen. apply argsort_perm.
  - apply (StronglySorted_map (fun x y : Q * Q => x.2 <= y.2)).
    exact (argsort_sorted pred).
  - unfold reordered. by rewrite map_map.
Qed.

Lemma gini_of_rawGini (actual pred : list Q) :
  length actual = length pred ->
  np_eq (gini_of (len actual) (reordered actual pred))
        (rawGini actual (reordered actual pred)).
Proof.
  intros Hlen. unfold gini_of, rawGini.
  apply np_div_proper; [|apply np_eq_refl].
  apply np_sub_proper; [|apply np_eq_refl].
  apply np_div_proper; [apply np_eq_refl|].
  simpl. by apply Qsum_perm, reordered_perm.
Qed.

End GiniSpecFacts.

(** ** The Gini statistic of an ascending sequence

    What the formula of [ginic] gives in exact arithmetic; the rounding of
    the floating point operations is no part of these facts. *)

Lemma len_cons {A : Type} (x : A) (l : list A) :
  inject_Z (len (x :: l)) == inject_Z (len l) + 1.
Proof. unfold len. simpl length. apply inject_Z_S. Qed.

Lemma gini_numerator_cons (x : Q) (s : list Q) :
  gini_numerator (x :: s)
  == gini_numerator s + (inject_Z (len s) * x - Qsum s).
Proof.
  unfold gini_numerator. rewrite Qsum_cumsum_cons, len_cons.
  change (Qsum (x :: s)) with (x + Qsum s). ring.
Qed.

Lemma sum_above_least (x : Q) (s : list Q) :
  Forall (Qle x) s ->
  inject_Z (len s) * x <= Qsum s ∧
  (Forall (fun y => y == x) s ∨ inject_Z (len s) * x < Qsum s).
Proof.
  induction 1 as [|y s Hy _ [IHle IHlt]].
  { change (inject_Z (len [])) with 0. simpl. split; [lra|]. by left. }
  rewrite len_cons. change (Qsum (y :: s)) with (y + Qsum s).
  split; [lra|].
  destruct (Qlt_le_dec x y) as [Hlt|Hle]; [right; lra|].
  destruct IHlt as [Hall|Hlt]; [|right; lra].
  left. constructor; [lra|done].
Qed.

Lemma gini_numerator_nonpos (s : list Q) :
  StronglySorted Qle s -> gini_numerator s <= 0.
Proof.
  induction 1 as [|x s _ IH Hx].
  { unfold gini_numerator. simpl. change (inject_Z (len [])) with 0. lra. }
  rewrite gini_numerator_cons. destruct (sum_above_least x s Hx). lra.
Qed.

Lemma gini_numerator_neg (s : list Q) :
  StronglySorted Qle s -> ~ constant s -> gini_numerator s < 0.
Proof.
  intros Hs Hnc. destruct Hs as [|x s Hs Hx].
  { destruct Hnc. intros x y Hx. inversion Hx. }
  rewrite gini_numerator_cons.
  pose proof (gini_numerator_nonpos s Hs) as Hle.
  destruct (sum_above_least x s Hx) as [_ [Hall|Hlt]]; [|lra].
  destruct Hnc. rewrite Forall_forall in Hall.
  assert (forall z, z ∈ x :: s -> z == x) as Hz.
  { intros z Hin. apply elem_of_cons in Hin as [->|Hin]; [reflexivity|].
    by apply Hall. }
  intros y z Hy%Hz Hz'%Hz. by rewrite Hy, Hz'.
Qed.

Lemma gini_of_ascending (s : list Q) :
  StronglySorted Qle s -> ~ constant s -> ~ Qsum s == 0 ->
  exists g, gini_of (len s) s = Fin g ∧ ~ g == 0.
Proof.
  intros Hs Hnc Hsum. pose proof (gini_numerator_neg s Hs Hnc) as Hneg.
  assert (0 < inject_Z (len s)) as Hn.
  { change 0 with (inject_Z 0). rewrite <- Zlt_Qlt. unfold len.
    destruct s; [|simpl length; lia].
    destruct Hnc. intros x y Hx. inversion Hx. }
  unfold gini_of. simpl.
  destruct (Qeq_bool (Qsum s) 0) eqn:E.
  { by apply Qeq_bool_iff in E. }
  simpl. rewrite (Qeq_bool_false_pos _ Hn).
  eexists. split; [reflexivity|]. intros Hg.
  assert (gini_numerator s == 0); [|lra].
  unfold gini_numerator.
  transitivity
    (2 * inject_Z (len s) * Qsum s *
     ((Qsum (cumsum s) / Qsum s + - ((inject_Z (len s) + 1) / 2))
      / inject_Z (len s))).
  - field. split; solve [lra | done].
  - rewrite Hg. ring.
Qed.

Lemma Qeq_bool_false_neq (a : Q) : ~ a == 0 -> Qeq_bool a 0 = false.
Proof.
  intros Ha. destruct (Qeq_bool a 0) eqn:E; [|done].
  by apply Qeq_bool_iff in E.
Qed.

Lemma np_div_self_non_finite (x : float64) :
  (forall g, x ≠ Fin g) -> np_div x x = NaN.
Proof. destruct x as [g| | |]; intros Hx; try done. by destruct (Hx g). Qed.

Lemma gini_of_zero_sum (n : Z) (s : list Q) :
  Qsum s == 0 -> forall g, gini_of n s ≠ Fin g.
Proof.
  intros Hs g. unfold gini_of. simpl.
  destruct (Qeq_bool (Qsum s) 0) eqn:E.
  2: { apply Qeq_bool_neq in E. by destruct E. }
  destruct (Qeq_bool (Qsum (cumsum s)) 0); simpl; [done|].
  destruct (negative (Qsum (cumsum s))); simpl;
    by destruct (negative (inject_Z n)).
Qed.

Section GiniSelfFacts.
Context {sorting : ArgSort}.

Lemma reordered_self_sorted (a : list Q) :
  StronglySorted Qle (reordered a a).
Proof. apply StronglySorted_map. exact (argsort_sorted a). Qed.

Lemma gini_normalizedc_self (a : list Q) :
  ~ constant a -> ~ Qsum a == 0 ->
  exists v, gini_normalizedc a (Arr1 a) = Ok (Fin v) ∧ v == 1.
Proof.
  intros Hnc Hsum. rewrite gini_normalizedc_within_bounds by done.
  pose proof (reordered_perm a a eq_refl) as Hperm.
  assert (len a = len (reordered a a)) as ->.
  { unfold len. by rewrite Hperm. }
  destruct (gini_of_ascending (reordered a a)) as (g & -> & Hg).
  - apply reordered_self_sorted.
  - intros Hc. apply Hnc. intros x y Hx Hy.
    apply Hc; by rewrite Hperm.
  - by rewrite (Qsum_perm _ _ Hperm).
  - exists (g / g). simpl. rewrite (Qeq_bool_false_neq _ Hg).
    split; [done|]. by field.
Qed.

Lemma gini_normalizedc_self_zero_sum (a : list Q) :
  Qsum a == 0 -> gini_normalizedc a (Arr1 a) = Ok NaN.
Proof.
  intros Hsum. rewrite gini_normalizedc_within_bounds by done.
  rewrite np_div_self_non_finite; [done|].
  apply gini_of_zero_sum.
  by rewrite (Qsum_perm _ _ (reordered_perm a a eq_refl)).
Qed.

End GiniSelfFacts.

(** ** Shapes of the adapters' results *)

Lemma elementwise_same_length f (x y : list float64) :
  length x = length y -> elementwise f x y = Ok (zip_with f x y).
Proof. intros Hlen. unfold elementwise. by rewrite decide_True. Qed.

Lemma mean_absolute_percentage_error_returns (y_true y_pred : list Q) :
  length y_true = length y_pred ->
  returns (mean_absolute_percentage_error y_true y_pred).
Proof.
  intros Hlen. unfold mean_absolute_percentage_error.
  rewrite elementwise_same_length by (by rewrite !length_map). simpl.
  rewrite elementwise_same_length.
  - by eexists.
  - rewrite !length_map, length_zip_with_l_eq; by rewrite !length_map.
Qed.

Lemma symmetric_mean_absolute_percentage_error_returns (y_true y_pred : list Q) :
  length y_true = length y_pred ->
  returns (symmetric_mean_absolute_percentage_error y_true y_pred).
Proof.
  intros Hlen. unfold symmetric_mean_absolute_percentage_error.
  rewrite !elementwise_same_length by (by rewrite !length_map). simpl.
  rewrite elementwise_same_length.
  - by eexists.
  - rewrite !length_map, !length_zip_with_l_eq; by rewrite !length_map.
Qed.

Section AdapterFacts.
Context {sorting : ArgSort}.
Variables np_sqrt np_log1p : float64 -> float64.
Variables mean_squared_error roc_auc_score
  : list Q -> list Q -> result float64.
Implicit Types (preds : list Q) (dtrain : Dataset).

Lemma mape_lgb_shape preds dtrain :
  length preds = length (get_label dtrain) ->
  returns_with metric_triple (mape_lgb preds dtrain).
Proof.
  intros Hlen. unfold mape_lgb.
  destruct (mean_absolute_percentage_error_returns (get_label dtrain) preds)
    as [v ->]; [done|].
  by eexists.
Qed.

Lemma smape_lgb_shape preds dtrain :
  length preds = length (get_label dtrain) ->
  returns_with metric_triple (smape_lgb preds dtrain).
Proof.
  intros Hlen. unfold smape_lgb.
  destruct (symmetric_mean_absolute_percentage_error_returns
              (get_label dtrain) preds) as [v ->]; [done|].
  by eexists.
Qed.

Lemma rmse_lgb_shape preds dtrain mse :
  mean_squared_error (get_label dtrain) preds = Ok mse ->
  returns_with metric_triple (rmse_lgb np_sqrt mean_squared_error preds dtrain).
Proof. intros Hm. unfold rmse_lgb, rmse. rewrite Hm. by eexists. Qed.

Lemma auc_lgb_shape preds dtrain auc :
  roc_auc_score (get_label dtrain) preds = Ok auc ->
  returns_with metric_triple (auc_lgb roc_auc_score preds dtrain).
Proof. intros Hm. unfold auc_lgb. rewrite Hm. by eexists. Qed.

Lemma rmsle_xgb_shape preds dtrain :
  length preds = length (get_label dtrain) ->
  returns_with metric_pair (rmsle_xgb np_sqrt np_log1p preds dtrain).
Proof.
  intros Hlen. unfold rmsle_xgb.
  rewrite elementwise_same_length by (by rewrite !length_map).
  by eexists.
Qed.

Lemma gini_lgb_shape preds dtrain :
  length preds = length (get_label dtrain) ->
  returns_with metric_triple (gini_lgb (Arr1 preds) dtrain).
Proof.
  intros Hlen. unfold gini_lgb.
  rewrite gini_normalizedc_within_bounds by lia. by eexists.
Qed.

Lemma gini_xgb_shape preds dtrain :
  length preds = length (get_label dtrain) ->
  exists v, gini_xgb (Arr1 preds) dtrain = Ok (PyList [v]) ∧ metric_pair v = true.
Proof.
  intros Hlen. unfold gini_xgb.
  rewrite gini_normalizedc_within_bounds by lia. by eexists.
Qed.

End AdapterFacts.

(** * The claims of the specification *)

Section RankingClaims.
Context {ID : Type} `{EqDecision ID}.

(** C1. For a positive [k], [apk] truncates [predicted] to its first [k]
    elements if it is longer, walks the truncated sequence counting as a
    hit every position whose element is in [actual] and does not occur
    earlier, adding [numHits / (i+1)] to the score at each hit, and for a
    non-empty [actual] returns the score divided by [min(|actual|, k)]. *)
Theorem apk_follows_walk (actual predicted : list ID) (k : Z) :
  (0 < k)%Z ->
  truncate predicted k
  = (if (k <? len predicted)%Z then take (Z.to_nat k) predicted
     else predicted) ∧
  (actual ≠ [] ->
   apk actual predicted k = Ok (averagePrecisionAtK actual predicted k)).
Proof.
  intros Hk. split.
  - apply truncate_spec. lia.
  - intros Ha. by apply apk_value.
Qed.

(** C5. With an empty [actual], [apk] returns exactly 0.0 for every
    predicted sequence and every [k]; it does not raise. *)
Theorem apk_empty_relevant_set (predicted : list ID) (k : Z) :
  apk [] predicted k = Ok 0.
Proof. apply apk_nil. Qed.

(** C10. For every [actual], every [predicted] and every [k >= 1], [apk]
    returns a value of the closed interval from 0 to 1. *)
Theorem apk_in_unit_interval (actual predicted : list ID) (k : Z) :
  (1 <= k)%Z ->
  exists v, apk actual predicted k = Ok v ∧ 0 <= v ∧ v <= 1.
Proof.
  intros Hk. destruct (decide (actual = [])) as [->|Ha].
  - exists 0. split; [apply apk_nil|]. lra.
  - exists (averagePrecisionAtK actual predicted k). split.
    + apply apk_value; [lia|done].
    + apply averagePrecisionAtK_bounds; [lia|done].
Qed.

(** C4. For equal-length, non-empty [actualLists] and [predictedLists] and
    a positive [k], [mapk] returns the arithmetic mean of the values of
    [apk] on the pairs [actualLists[i]], [predictedLists[i]]. *)
Theorem mapk_is_arithmetic_mean (actualLists predictedLists : list (list ID))
    (k : Z) :
  (0 < k)%Z ->
  length actualLists = length predictedLists ->
  actualLists ≠ [] ->
  exists scores : list Q,
    length scores = length actualLists ∧
    (forall i a p,
        actualLists !! i = Some a -> predictedLists !! i = Some p ->
        exists s, scores !! i = Some s ∧ apk a p k = Ok s) ∧
    mapk actualLists predictedLists k = Ok (Fin (arithmetic_mean scores)).
Proof.
  intros Hk Hlen Hne.
  destruct (mapk_scores actualLists predictedLists k Hk)
    as (scores & Hall & Hmapk).
  assert (length scores = length actualLists) as Hscores.
  { rewrite <- (Forall2_length _ _ _ Hall). by apply length_zip_with_l_eq. }
  exists scores. split; [done|]. split.
  - intros i a p Ha Hp.
    destruct (Forall2_lookup_l _ _ _ i (a, p) Hall) as (s & Hs & Happ).
    { apply lookup_zip_with_Some. by exists a, p. }
    by exists s.
  - rewrite Hmapk, np_mean_finite; [done|].
    intros ->. by destruct actualLists.
Qed.

(** C8, as the code has it. With no query pairs [mapk] raises nothing: it
    returns NaN, numpy's mean of an empty list. *)
Theorem mapk_no_queries_returns_nan (k : Z) :
  mapk (ID := ID) [] [] k = Ok NaN.
Proof. apply mapk_no_pairs. by left. Qed.

End RankingClaims.

Section GiniClaims.
Context {sorting : ArgSort}.

(** C2. For equal-length, non-empty [actual] and [pred], [ginic] returns
    the value obtained by reordering [actual] by ascending [pred], summing
    the cumulative sums of the reordered values, dividing by the sum of
    [actual], subtracting [(n+1)/2] and dividing by [n]. *)
Theorem ginic_is_rawGini (actual pred : list Q) :
  length actual = length pred ->
  actual ≠ [] ->
  exists (reordering : list Q) (g : float64),
    ascending_reordering actual pred reordering ∧
    ginic actual pred = Ok g ∧
    np_eq g (rawGini actual reordering).
Proof.
  intros Hlen _. exists (reordered actual pred), (gini_of (len actual) (reordered actual pred)).
  split; [by apply reordered_ascending|]. split.
  - apply ginic_within_bounds. lia.
  - by apply gini_of_rawGini.
Qed.

(** C3. For equal-length, non-empty [actual] and [pred],
    [gini_normalizedc] returns [ginic(actual, pred)] divided by
    [ginic(actual, actual)]; of a two-column [pred] it uses the second
    column only. *)
Theorem gini_normalizedc_is_ratio (actual pred : list Q) :
  length actual = length pred ->
  actual ≠ [] ->
  (exists g g_max,
      ginic actual pred = Ok g ∧
      ginic actual actual = Ok g_max ∧
      gini_normalizedc actual (Arr1 pred) = Ok (np_div g g_max)) ∧
  (forall rows : list (list Q),
      rectangular (Arr2 2 rows) ->
      map (fun r => nth 1 r 0) rows = pred ->
      gini_normalizedc actual (Arr2 2 rows)
      = gini_normalizedc actual (Arr1 pred)).
Proof.
  intros Hlen _. split.
  - exists (gini_of (len actual) (reordered actual pred)),
      (gini_of (len actual) (reordered actual actual)).
    split; [apply ginic_within_bounds; lia|].
    split; [by apply ginic_within_bounds|].
    apply gini_normalizedc_within_bounds. lia.
  - intros rows _ <-. apply gini_normalizedc_second_column. lia.
Qed.


End GiniClaims.

(** C7, as the code has it. On sequences of mismatched lengths no shape
    error is raised.  [mapk] pairs the two sequences up to the shorter one
    and returns the mean over those pairs.  [ginic] and [gini_normalizedc]
    raise an [IndexError] when [pred] is the longer one; when [pred] is the
    shorter one they return a value computed from the elements of [actual]
    that the indices of [pred] select, with [n] the length of [actual]. *)
Theorem mismatched_lengths_behaviour {sorting : ArgSort}
    {ID : Type} `{EqDecision ID}
    (actualLists predictedLists : list (list ID)) (k : Z)
    (actual pred : list Q) :
  (0 < k)%Z ->
  length actualLists ≠ length predictedLists ->
  length actual ≠ length pred ->
  (returns (mapk actualLists predictedLists k) ∧
   mapk actualLists predictedLists k
   = mapk (take (Nat.min (length actualLists) (length predictedLists))
                actualLists)
          (take (Nat.min (length actualLists) (length predictedLists))
                predictedLists) k) ∧
  ((length actual < length pred)%nat ->
   ginic actual pred = Raise IndexError ∧
   gini_normalizedc actual (Arr1 pred) = Raise IndexError) ∧
  ((length pred < length actual)%nat ->
   ginic actual pred = Ok (gini_of (len actual) (reordered actual pred)) ∧
   returns (gini_normalizedc actual (Arr1 pred))).
Proof.
  intros Hk _ _. split; [split|split].
  - destruct (mapk_scores actualLists predictedLists k Hk) as (scores & _ & ->).
    by eexists.
  - apply mapk_zip_prefix.
  - intros Hlt. split.
    + by apply ginic_out_of_bounds.
    + by apply gini_normalizedc_out_of_bounds.
  - intros Hlt. split.
    + apply ginic_within_bounds. lia.
    + rewrite gini_normalizedc_within_bounds by lia. by eexists.
Qed.

(** C9, as the code has it. On labels and one-dimensional predictions of
    one length, the LightGBM adapters return a 3-tuple of the metric's
    name, its value and the higher-is-better flag; the XGBoost adapters
    return the name and the value only: [rmsle_xgb] a 2-tuple, [gini_xgb]
    a list of one 2-tuple.  [rmse_lgb] and [auc_lgb] build their 3-tuple
    around the value of scikit-learn's routine, and raise what the routine
    raises. *)
Theorem adapter_result_shape {sorting : ArgSort}
    (np_sqrt np_log1p : float64 -> float64)
    (mean_squared_error roc_auc_score : list Q -> list Q -> result float64)
    (preds : list Q) (dtrain : Dataset) :
  length preds = length (get_label dtrain) ->
  returns_with metric_triple (mape_lgb preds dtrain) ∧
  returns_with metric_triple (smape_lgb preds dtrain) ∧
  returns_with metric_triple (gini_lgb (Arr1 preds) dtrain) ∧
  returns_with metric_pair (rmsle_xgb np_sqrt np_log1p preds dtrain) ∧
  (exists v, gini_xgb (Arr1 preds) dtrain = Ok (PyList [v]) ∧
             metric_pair v = true) ∧
  wraps (mean_squared_error (get_label dtrain) preds)
    (fun mse => PyTuple [PyStr "rmse"; PyFloat (np_sqrt mse); PyBool false])
    (rmse_lgb np_sqrt mean_squared_error preds dtrain) ∧
  wraps (roc_auc_score (get_label dtrain) preds)
    (fun auc => PyTuple [PyStr "auc"; PyFloat auc; PyBool true])
    (auc_lgb roc_auc_score preds dtrain).
Proof.
  intros Hlen. repeat split.
  - by apply mape_lgb_shape.
  - by apply smape_lgb_shape.
  - by apply gini_lgb_shape.
  - by apply rmsle_xgb_shape.
  - by apply gini_xgb_shape.
  - unfold wraps, rmse_lgb, rmse.
    by destruct (mean_squared_error (get_label dtrain) preds).
  - unfold wraps, auc_lgb.
    by destruct (roc_auc_score (get_label dtrain) preds).
Qed.

(** * The claims on concrete inputs *)

Lemma sample_actual_not_constant : ~ constant sample_actual.
Proof.
  intros Hc. specialize (Hc 0 1). unfold sample_actual in Hc.
  assert (0 == 1) as Habs; [|discriminate Habs].
  apply Hc; [left|right; right; left].
Defined.

Lemma apk_follows_walk_witness :
  (0 < 3)%Z ∧
  truncate [1; 2; 3; 4; 5; 6]%Z 3
  = (if (3 <? len [1; 2; 3; 4; 5; 6]%Z)%Z
     then take (Z.to_nat 3) [1; 2; 3; 4; 5; 6]%Z
     else [1; 2; 3; 4; 5; 6]%Z) ∧
  ([1; 2; 3; 4; 5; 6]%Z ≠ [] ->
   apk [1; 2; 3; 4; 5; 6]%Z [1; 2; 3; 4; 5; 6]%Z 3
   = Ok (averagePrecisionAtK [1; 2; 3; 4; 5; 6]%Z [1; 2; 3; 4; 5; 6]%Z 3)).
Proof.
  split; [lia|].
  apply (apk_follows_walk [1; 2; 3; 4; 5; 6]%Z [1; 2; 3; 4; 5; 6]%Z 3). lia.
Defined.

Lemma apk_in_unit_interval_witness :
  (1 <= 5)%Z ∧
  exists v, apk [1; 2; 3]%Z [1; 2; 3; 4; 5]%Z 5 = Ok v ∧ 0 <= v ∧ v <= 1.
Proof.
  split; [lia|].
  apply (apk_in_unit_interval [1; 2; 3]%Z [1; 2; 3; 4; 5]%Z 5). lia.
Defined.

Lemma mapk_is_arithmetic_mean_witness :
  (0 < 2)%Z ∧
  length [[1; 2]; [3]]%Z = length [[1; 3]; [3; 4]]%Z ∧
  [[1; 2]; [3]]%Z ≠ [] ∧
  exists scores : list Q,
    length scores = length [[1; 2]; [3]]%Z ∧
    (forall i a p,
        [[1; 2]; [3]]%Z !! i = Some a -> [[1; 3]; [3; 4]]%Z !! i = Some p ->
        exists s, scores !! i = Some s ∧ apk a p 2 = Ok s) ∧
    mapk [[1; 2]; [3]]%Z [[1; 3]; [3; 4]]%Z 2
    = Ok (Fin (arithmetic_mean scores)).
Proof.
  split; [lia|]. split; [reflexivity|]. split; [discriminate|].
  apply (mapk_is_arithmetic_mean [[1; 2]; [3]]%Z [[1; 3]; [3; 4]]%Z 2);
    [lia|reflexivity|discriminate].
Defined.

Lemma ginic_is_rawGini_witness :
  length sample_actual = length sample_scores ∧
  sample_actual ≠ [] ∧
  exists (reordering : list Q) (g : float64),
    ascending_reordering sample_actual sample_scores reordering ∧
    ginic (sorting := stable_argsort) sample_actual sample_scores = Ok g ∧
    np_eq g (rawGini sample_actual reordering).
Proof.
  split; [reflexivity|]. split; [discriminate|].
  apply (ginic_is_rawGini (sorting := stable_argsort)
           sample_actual sample_scores); [reflexivity|discriminate].
Defined.

Lemma gini_normalizedc_is_ratio_witness :
  length sample_actual = length sample_scores ∧
  sample_actual ≠ [] ∧
  (exists g g_max,
      ginic (sorting := stable_argsort) sample_actual sample_scores = Ok g ∧
      ginic (sorting := stable_argsort) sample_actual sample_actual
      = Ok g_max ∧
      gini_normalizedc (sorting := stable_argsort)
        sample_actual (Arr1 sample_scores) = Ok (np_div g g_max)) ∧
  (forall rows : list (list Q),
      rectangular (Arr2 2 rows) ->
      map (fun r => nth 1 r 0) rows = sample_scores ->
      gini_normalizedc (sorting := stable_argsort) sample_actual (Arr2 2 rows)
      = gini_normalizedc (sorting := stable_argsort)
          sample_actual (Arr1 sample_scores)).
Proof.
  split; [reflexivity|]. split; [discriminate|].
  apply (gini_normalizedc_is_ratio (sorting := stable_argsort)
           sample_actual sample_scores); [reflexivity|discriminate].
Defined.


Lemma mismatched_lengths_behaviour_witness :
  (0 < 5)%Z ∧
  length [[1]]%Z ≠ length [[1]; [2]]%Z ∧
  length [1; 2; 3] ≠ length [0.5; 0.1] ∧
  returns (mapk [[1]]%Z [[1]; [2]]%Z 5) ∧
  ginic (sorting := stable_argsort) [1; 2; 3] [0.5; 0.1]
  = Ok (gini_of (len [1; 2; 3])
          (reordered (sorting := stable_argsort) [1; 2; 3] [0.5; 0.1])).
Proof.
  split; [lia|]. split; [discriminate|]. split; [discriminate|].
  destruct (mismatched_lengths_behaviour (sorting := stable_argsort)
              [[1]]%Z [[1]; [2]]%Z 5 [1; 2; 3] [0.5; 0.1])
    as ((Hmapk & _) & _ & Hshort); [lia|discriminate|discriminate|].
  split; [exact Hmapk|]. apply Hshort. simpl. lia.
Defined.

Lemma adapter_result_shape_witness :
  length sample_scores = length (get_label {| get_label := sample_actual |}) ∧
  returns_with metric_triple
    (gini_lgb (sorting := stable_argsort) (Arr1 sample_scores)
       {| get_label := sample_actual |}) ∧
  returns_with metric_pair
    (rmsle_xgb (fun x => x) (fun x => x) sample_scores
       {| get_label := sample_actual |}) ∧
  returns_with metric_triple
    (rmse_lgb (fun x => x) mean_squared_error_reading sample_scores
       {| get_label := sample_actual |}) ∧
  returns_with metric_triple
    (auc_lgb roc_auc_score_reading sample_scores
       {| get_label := sample_actual |}).
Proof.
  split; [reflexivity|].
  destruct (adapter_result_shape (sorting := stable_argsort)
              (fun x => x) (fun x => x)
              mean_squared_error_reading roc_auc_score_reading
              sample_scores {| get_label := sample_actual |})
    as (_ & _ & Hlgb & Hxgb & _ & Hrmse & Hauc); [reflexivity|].
  split; [exact Hlgb|]. split; [exact Hxgb|]. split.
  - eexists. split; [exact Hrmse|reflexivity].
  - eexists. split; [exact Hauc|reflexivity].
Defined.

(** The examples of the specification. *)

Example apk_perfect_ranking :
  value_is (apk [1; 2; 3]%Z [1; 2; 3; 4; 5]%Z 5) 1.
Proof. reflexivity. Qed.

Example apk_duplicate_suppression :
  value_is (apk [1]%Z [1; 1; 2]%Z 3) 1.
Proof. reflexivity. Qed.

Example apk_truncation :
  apk [1; 2; 3; 4; 5; 6]%Z [1; 2; 3; 4; 5; 6]%Z 3
  = apk [1; 2; 3; 4; 5; 6]%Z [1; 2; 3]%Z 3.
Proof. reflexivity. Qed.

Example apk_zero_k_raises :
  apk [1; 2; 3]%Z [1; 2; 3]%Z 0 = Raise ZeroDivisionError.
Proof. reflexivity. Qed.

Example gini_example :
  gini_normalizedc (sorting := stable_argsort)
    sample_actual (Arr1 sample_scores)
  = Ok (Fin (-40 # 120)).
Proof. reflexivity. Qed.

(** ** Where the specification and the code part *)


(** C7. One query against two ranked lists, and three outcomes against two
    scores: both calls return a number. *)
Lemma mismatched_lengths_computed :
  mapk [[1]]%Z [[1]; [2]]%Z 5 = Ok (Fin 1) ∧
  ginic (sorting := stable_argsort) [1; 2; 3] [0.5; 0.1]
  = Ok (Fin (-2 # 18)).
Proof. split; reflexivity. Qed.

(** C8. No query at all: [mapk] returns NaN. *)
Lemma mapk_no_queries_nan : mapk (ID := Z) [] [] 5 = Ok NaN.
Proof. reflexivity. Qed.

(** C9. [gini_xgb] returns a list of one 2-tuple. *)
Lemma gini_xgb_returns_pairs :
  gini_xgb (sorting := stable_argsort) (Arr1 sample_scores)
    {| get_label := sample_actual |}
  = Ok (PyList [PyTuple [PyStr "gini"; PyFloat (Fin (-40 # 120))]]) ∧
  triple_or_triples (PyList [PyTuple [PyStr "gini"; PyFloat (Fin (-40 # 120))]])
  = false.
Proof. split; reflexivity. Qed.

(** * Further properties of the code *)

(** ** Average precision: edge cases of [k], and what the score ignores *)

Section RankingPrecisionMore.
Context {ID : Type} `{EqDecision ID}.
Implicit Types actual predicted rest extra : list ID.

Lemma truncate_take predicted k :
  (0 <= k)%Z -> truncate predicted k = take (Z.to_nat k) predicted.
Proof.
  intros Hk. unfold truncate, slice_to, len.
  destruct (Z.gtb_spec (Z.of_nat (length predicted)) k) as [Hlt|Hge].
  - by destruct (Z.leb_spec 0 k); [|lia].
  - rewrite take_ge; [done|lia].
Qed.

Lemma apk_truncate_ext actual predicted predicted' k :
  truncate predicted k = truncate predicted' k ->
  apk actual predicted k = apk actual predicted' k.
Proof. intros Heq. unfold apk. by rewrite Heq. Qed.

Lemma apk_loop_actual_ext actual actual' predicted rest ind st :
  (forall p, p ∈ actual ↔ p ∈ actual') ->
  apk_loop actual predicted rest ind st
  = apk_loop actual' predicted rest ind st.
Proof.
  intros Hmem. revert ind st.
  induction rest as [|p rest IH]; intros ind [num_hits score]; simpl; [done|].
  assert (py_in p actual = py_in p actual') as ->.
  { unfold py_in. apply bool_decide_ext, Hmem. }
  by rewrite !IH.
Qed.

Lemma apk_k_zero actual predicted :
  actual ≠ [] -> apk actual predicted 0 = Raise ZeroDivisionError.
Proof.
  intros Ha. unfold apk. rewrite truncate_take by done. simpl.
  destruct actual as [|a actual]; [done|].
  unfold py_truediv, len. simpl length.
  by rewrite Z.min_r by lia.
Qed.

(** X1. With [k = 0] and a non-empty [actual], [apk] raises
    ZeroDivisionError whatever [predicted] is. *)
Theorem apk_zero_k_division_error (actual predicted : list ID) :
  actual ≠ [] -> apk actual predicted 0 = Raise ZeroDivisionError.
Proof. apply apk_k_zero. Qed.

(** X2. With a negative [k] and a non-empty [actual], [apk] does not
    raise: it returns a value that is never positive. *)
Theorem apk_negative_k (actual predicted : list ID) (k : Z) :
  (k < 0)%Z -> actual ≠ [] ->
  exists v, apk actual predicted k = Ok v ∧ v <= 0.
Proof.
  intros Hk Ha. unfold apk.
  destruct (apk_loop_bounds actual (truncate predicted k)
              (truncate predicted k) 0 0 0) as (_ & Hscore & _); [done..|].
  destruct (apk_loop _ _ _ _ _) as [num_hits score]. simpl in Hscore.
  destruct actual as [|a actual]; [done|].
  assert (Z.min (len (a :: actual)) k = k) as ->.
  { unfold len. simpl length. lia. }
  assert (inject_Z k < 0) as Hneg.
  { change 0 with (inject_Z 0). rewrite <- Zlt_Qlt. lia. }
  unfold py_truediv. rewrite Qeq_bool_false_neq by lra.
  eexists. split; [done|].
  assert (0 <= score / - inject_Z k) as Hpos.
  { apply Qle_shift_div_l; lra. }
  assert (score / inject_Z k == - (score / - inject_Z k)) as ->; [|lra].
  field. lra.
Qed.

Lemma apk_perm_actual actual actual' predicted k :
  actual ≡ₚ actual' -> apk actual predicted k = apk actual' predicted k.
Proof.
  intros Hperm. unfold apk.
  rewrite (apk_loop_actual_ext actual actual').
  2: { intros p. by rewrite Hperm. }
  destruct (apk_loop _ _ _ _ _) as [num_hits score].
  assert (len actual = len actual') as Hlen.
  { unfold len. by rewrite Hperm. }
  destruct actual as [|a actual], actual' as [|a' actual']; try done.
  by rewrite Hlen.
Qed.

(** X3. The order of [actual] does not matter: two orderings of the same
    relevant items give the same result. *)
Theorem apk_actual_order (actual actual' predicted : list ID) (k : Z) :
  actual ≡ₚ actual' -> apk actual predicted k = apk actual' predicted k.
Proof. apply apk_perm_actual. Qed.

(** X4. Predictions after the first [k] are never looked at: anything
    appended to a list of at least [k] predictions leaves the result as it
    is. *)
Theorem apk_beyond_k_ignored (actual predicted extra : list ID) (k : Z) :
  (0 <= k <= len predicted)%Z ->
  apk actual (predicted ++ extra) k = apk actual predicted k.
Proof.
  intros Hk. apply apk_truncate_ext. rewrite !truncate_take by lia.
  apply take_app_le. unfold len in Hk. lia.
Qed.

End RankingPrecisionMore.

(** ** Average precision: which predictions count *)

Section RankingPrecisionHits.
Context {ID : Type} `{EqDecision ID}.
Implicit Types actual predicted rest seg tail pre : list ID.

Lemma apk_loop_app actual predicted seg tail ind st :
  apk_loop actual predicted (seg ++ tail) ind st
  = apk_loop actual predicted tail (ind + length seg)
      (apk_loop actual predicted seg ind st).
Proof.
  revert ind st. induction seg as [|p seg IH]; intros ind [num_hits score].
  { simpl. by rewrite Nat.add_0_r. }
  simpl. rewrite <- Nat.add_succ_comm.
  destruct (_ && _); apply IH.
Qed.

Lemma apk_loop_no_hit actual predicted rest ind st :
  (forall j x, rest !! j = Some x ->
     py_in x actual && negb (py_in x (take (ind + j) predicted)) = false) ->
  apk_loop actual predicted rest ind st = st.
Proof.
  revert ind st. induction rest as [|p rest IH]; intros ind [num_hits score] Hno.
  { done. }
  simpl. pose proof (Hno 0%nat p eq_refl) as Hp.
  rewrite Nat.add_0_r in Hp. rewrite Hp. apply IH.
  intros j x Hx. rewrite Nat.add_succ_comm. by apply (Hno (S j)).
Qed.

Lemma apk_loop_all_hits actual predicted rest ind num_hits score :
  (forall j x, rest !! j = Some x ->
     py_in x actual && negb (py_in x (take (ind + j) predicted)) = true) ->
  num_hits == inject_Z (Z.of_nat ind) ->
  (apk_loop actual predicted rest ind (num_hits, score)).1
  == num_hits + inject_Z (Z.of_nat (length rest)) ∧
  (apk_loop actual predicted rest ind (num_hits, score)).2
  == score + inject_Z (Z.of_nat (length rest)).
Proof.
  revert ind num_hits score.
  induction rest as [|p rest IH]; intros ind num_hits score Hall Hn.
  { simpl. change (inject_Z (Z.of_nat 0)) with 0. split; ring. }
  simpl. pose proof (Hall 0%nat p eq_refl) as Hp.
  rewrite Nat.add_0_r in Hp. rewrite Hp.
  pose proof (inject_Z_nat_nonneg ind) as Hind.
  destruct (IH (S ind) (num_hits + 1)
              (score + (num_hits + 1) / (inject_Z (Z.of_nat ind) + 1)))
    as [IH1 IH2].
  { intros j x Hx. rewrite Nat.add_succ_comm. by apply (Hall (S j)). }
  { rewrite inject_Z_S, Hn. reflexivity. }
  rewrite IH1, IH2, inject_Z_S. split; [ring|].
  rewrite Hn. field. lra.
Qed.

Lemma apk_loop_predicted_ext actual predicted predicted' rest ind st :
  (forall j, (j < length rest)%nat ->
     take (ind + j) predicted = take (ind + j) predicted') ->
  apk_loop actual predicted rest ind st
  = apk_loop actual predicted' rest ind st.
Proof.
  revert ind st. induction rest as [|p rest IH]; intros ind [num_hits score] Hpre.
  { done. }
  simpl. pose proof (Hpre 0%nat ltac:(simpl; lia)) as Hp.
  rewrite Nat.add_0_r in Hp. rewrite Hp.
  assert (forall st, apk_loop actual predicted rest (S ind) st
                     = apk_loop actual predicted' rest (S ind) st) as Hrest.
  { intros st. apply IH. intros j Hj. rewrite Nat.add_succ_comm.
    apply Hpre. simpl. lia. }
  by rewrite !Hrest.
Qed.

Lemma hit_items_subset actual predicted rest ind x :
  x ∈ hit_items actual predicted rest ind -> x ∈ rest.
Proof.
  revert ind. induction rest as [|p rest IH]; intros ind; simpl.
  { intros Hx. inversion Hx. }
  destruct (_ && _).
  - intros [->|Hx]%elem_of_cons; [by left|]. right. by eapply IH.
  - intros Hx. right. by eapply IH.
Qed.

Lemma hit_items_complete actual predicted rest pre x :
  predicted = pre ++ rest ->
  x ∈ rest -> x ∈ actual -> x ∉ pre ->
  x ∈ hit_items actual predicted rest (length pre).
Proof.
  revert pre. induction rest as [|p rest IH]; intros pre Hpred Hx Ha Hpre.
  { inversion Hx. }
  simpl.
  assert (take (length pre) predicted = pre) as ->.
  { subst predicted. by rewrite take_app_length. }
  destruct (decide (x = p)) as [->|Hne].
  - unfold py_in. rewrite bool_decide_eq_true_2 by done.
    rewrite bool_decide_eq_false_2 by done. by left.
  - assert (x ∈ hit_items actual predicted rest (S (length pre))) as Hin.
    { specialize (IH (pre ++ [p])).
      rewrite length_app, Nat.add_1_r in IH. apply IH; try done.
      - by rewrite <- app_assoc.
      - by apply elem_of_cons in Hx as [?|?].
      - intros [?|Hp%list_elem_of_singleton]%elem_of_app; done. }
    destruct (_ && _); [by right|done].
Qed.

Lemma apk_loop_gain actual predicted rest ind num_hits score :
  0 <= num_hits -> num_hits <= inject_Z (Z.of_nat ind) ->
  hit_items actual predicted rest ind ≠ [] ->
  score < (apk_loop actual predicted rest ind (num_hits, score)).2.
Proof.
  revert ind num_hits score.
  induction rest as [|p rest IH]; intros ind num_hits score Hlo Hhi Hhit.
  { done. }
  simpl in *. pose proof (inject_Z_nat_nonneg ind) as Hind.
  destruct (_ && _).
  - assert (0 < (num_hits + 1) / (inject_Z (Z.of_nat ind) + 1)) as Ht.
    { apply Qlt_shift_div_l; lra. }
    destruct (apk_loop_bounds actual predicted rest (S ind) (num_hits + 1)
                (score + (num_hits + 1) / (inject_Z (Z.of_nat ind) + 1)))
      as (_ & Hge & _).
    { lra. }
    { rewrite inject_Z_S. lra. }
    simpl in Hge. lra.
  - apply IH; [done| |done]. rewrite inject_Z_S. lra.
Qed.

Lemma apk_score_form actual predicted k :
  (0 < k)%Z -> actual ≠ [] ->
  apk actual predicted k
  = Ok ((apk_loop actual (truncate predicted k) (truncate predicted k) 0
           (0, 0)).2
        / inject_Z (Z.min (len actual) k)).
Proof.
  intros Hk Ha. unfold apk.
  destruct (apk_loop _ _ _ _ _) as [num_hits score]. simpl.
  destruct actual as [|a actual]; [done|].
  unfold py_truediv. by rewrite Qeq_bool_false_pos by by apply min_len_pos.
Qed.

(** X5. For [k >= 1] and a non-empty [actual], the result is positive
    exactly when one of the first [k] predictions is in [actual]. *)
Theorem apk_positive_iff_relevant (actual predicted : list ID) (k : Z) :
  (1 <= k)%Z -> actual ≠ [] ->
  exists v,
    apk actual predicted k = Ok v ∧
    (0 < v ↔ exists x, x ∈ take (Z.to_nat k) predicted ∧ x ∈ actual).
Proof.
  intros Hk Ha. rewrite apk_score_form by (done || lia).
  rewrite truncate_take by lia. set (top := take (Z.to_nat k) predicted).
  eexists. split; [done|].
  pose proof (min_len_pos actual k ltac:(lia) Ha) as Hd.
  destruct (apk_loop_bounds actual top top 0 0 0) as (_ & Hlo & Hhi); [done..|].
  simpl in Hlo, Hhi. split.
  - intros Hv.
    destruct (hit_items actual top top 0) as [|x hits] eqn:Hhits.
    + exfalso. change (inject_Z (Z.of_nat (length []))) with 0 in Hhi.
      assert ((apk_loop actual top top 0 (0, 0)).2 == 0) as Hz by lra.
      rewrite Hz in Hv. unfold Qdiv in Hv. rewrite Qmult_0_l in Hv. lra.
    + exists x. assert (x ∈ hit_items actual top top 0) as Hx.
      { rewrite Hhits. by left. }
      split; [by eapply hit_items_subset|].
      by apply (hit_items_fresh actual top top [] eq_refl).
  - intros (x & Htop & Hact). apply Qlt_shift_div_l; [done|].
    rewrite Qmult_0_l. apply apk_loop_gain; [done..|].
    intros Hnil.
    pose proof (hit_items_complete actual top top [] x eq_refl Htop Hact) as Hx.
    simpl in Hx. rewrite Hnil in Hx.
    assert (x ∉ []) as Hempty by (intros Hin; inversion Hin).
    specialize (Hx Hempty). inversion Hx.
Qed.

End RankingPrecisionHits.

(** ** Average precision: the best ranking, and predictions that add nothing *)

Section RankingPrecisionBest.
Context {ID : Type} `{EqDecision ID}.
Implicit Types actual predicted rest top tail : list ID.

Lemma apk_loop_relevant_first top tail :
  NoDup top ->
  (apk_loop top (top ++ tail) (top ++ tail) 0 (0, 0)).2
  == inject_Z (Z.of_nat (length top)).
Proof.
  intros Hnd. rewrite apk_loop_app. rewrite apk_loop_no_hit.
  - destruct (apk_loop_all_hits top (top ++ tail) top 0 0 0) as [_ Hs].
    + intros j x Hx. simpl. unfold py_in.
      rewrite bool_decide_eq_true_2 by by eapply list_elem_of_lookup_2.
      rewrite bool_decide_eq_false_2; [done|].
      rewrite take_app_le by (apply lookup_lt_Some in Hx; lia).
      intros (i & Hi & Hij)%elem_of_take.
      pose proof (NoDup_lookup _ _ _ _ Hnd Hi Hx). lia.
    + reflexivity.
    + rewrite Hs. ring.
  - intros j x Hx. unfold py_in.
    destruct (decide (x ∈ top)) as [Hin|Hin].
    + rewrite (bool_decide_eq_true_2 (x ∈ take _ _)); [by rewrite andb_false_r|].
      apply elem_of_take. apply list_elem_of_lookup_1 in Hin as [i Hi].
      exists i. split.
      * rewrite lookup_app_l; [done|]. by eapply lookup_lt_Some.
      * apply lookup_lt_Some in Hi. lia.
    + by rewrite bool_decide_eq_false_2.
Qed.

(** X6. For a non-empty [actual] without duplicates: when the
    predictions start with the items of [actual], each once and in any
    order, and [k] is at least their number, the result is 1, whatever
    follows. *)
Theorem apk_relevant_first (actual top rest : list ID) (k : Z) :
  NoDup actual -> actual ≠ [] -> top ≡ₚ actual -> (len actual <= k)%Z ->
  value_is (apk actual (top ++ rest) k) 1.
Proof.
  intros Hnd Ha Hperm Hk.
  rewrite (apk_perm_actual actual top) by done.
  assert (top ≠ []) as Htop.
  { intros ->. by apply Permutation_nil_l in Hperm. }
  assert (len top = len actual) as Hlen by (unfold len; by rewrite Hperm).
  rewrite <- Hperm in Hnd. rewrite <- Hlen in Hk.
  pose proof (min_len_pos top k) as Hpos.
  rewrite apk_score_form; [|destruct top; [done|unfold len in *; simpl in *; lia]|done].
  rewrite truncate_take by (unfold len in Hk; lia).
  rewrite take_app, (take_ge top) by (unfold len in Hk; lia).
  simpl. rewrite apk_loop_relevant_first by done.
  rewrite Z.min_l by done. unfold len.
  field. specialize (Hpos ltac:(destruct top; [done|unfold len in *; simpl in *; lia]) Htop).
  rewrite Z.min_l in Hpos by done. unfold len in Hpos. lra.
Qed.

(** X7. A prediction that is not in [actual], or that repeats an earlier
    one, adds nothing: appended within the first [k] it leaves the result
    as it is. *)
Theorem apk_append_no_gain (actual predicted : list ID) (p : ID) (k : Z) :
  (len predicted < k)%Z -> p ∉ actual ∨ p ∈ predicted ->
  apk actual (predicted ++ [p]) k = apk actual predicted k.
Proof.
  intros Hk Hp. unfold apk, truncate.
  assert ((len (predicted ++ [p]) >? k)%Z = false) as ->.
  { rewrite Z.gtb_ltb. apply Z.ltb_ge.
    unfold len in *. rewrite length_app. simpl. lia. }
  assert ((len predicted >? k)%Z = false) as ->.
  { rewrite Z.gtb_ltb. apply Z.ltb_ge. lia. }
  rewrite apk_loop_app.
  rewrite (apk_loop_no_hit actual (predicted ++ [p]) [p]).
  - rewrite (apk_loop_predicted_ext actual (predicted ++ [p]) predicted); [done|].
    intros j Hj. simpl. apply take_app_le. lia.
  - intros [|j] x Hx; [|done]. injection Hx as <-.
    rewrite Nat.add_0_r. simpl. rewrite take_app_length. unfold py_in.
    destruct Hp as [Hp|Hp].
    + by rewrite bool_decide_eq_false_2.
    + rewrite (bool_decide_eq_true_2 (p ∈ predicted)) by done.
      by rewrite andb_false_r.
Qed.

End RankingPrecisionBest.

(** ** The mean over queries: range and the zero [k] *)

Lemma Qsum_bounds (l : list Q) :
  Forall (fun s => 0 <= s ∧ s <= 1) l ->
  0 <= Qsum l ∧ Qsum l <= inject_Z (len l).
Proof.
  induction 1 as [|s l [Hs0 Hs1] _ [IH0 IH1]].
  { change (inject_Z (len [])) with 0. simpl. lra. }
  rewrite len_cons. change (Qsum (s :: l)) with (s + Qsum l). lra.
Qed.

Lemma comprehension_raises {A B : Type} (f : A -> result B) (l : list A)
    (e : exn) (x : A) :
  x ∈ l -> f x = Raise e ->
  (forall y, y ∈ l -> f y = Raise e ∨ returns (f y)) ->
  comprehension f l = Raise e.
Proof.
  intros Hx Hfx. induction l as [|y l IH]; intros Hall; [inversion Hx|].
  simpl. destruct (Hall y) as [Hy|[b Hy]]; [by left|by rewrite Hy|].
  rewrite Hy. simpl.
  apply elem_of_cons in Hx as [->|Hx]; [congruence|].
  rewrite IH; [done|done|]. intros z Hz. apply Hall. by right.
Qed.

Section MeanAveragePrecisionMore.
Context {ID : Type} `{EqDecision ID}.
Implicit Types actualLists predictedLists : list (list ID).

Lemma apk_unit_interval (actual predicted : list ID) (k : Z) (v : Q) :
  (1 <= k)%Z -> apk actual predicted k = Ok v -> 0 <= v ∧ v <= 1.
Proof.
  intros Hk. destruct (decide (actual = [])) as [->|Ha].
  - rewrite apk_nil. intros [= <-]. lra.
  - rewrite apk_value by (lia || done). intros [= <-].
    apply averagePrecisionAtK_bounds; [lia|done].
Qed.

(** X8. For [k >= 1] and at least one query pair, [mapk] returns a
    finite number of the closed interval from 0 to 1. *)
Theorem mapk_in_unit_interval actualLists predictedLists (k : Z) :
  (1 <= k)%Z -> actualLists ≠ [] -> predictedLists ≠ [] ->
  exists v, mapk actualLists predictedLists k = Ok (Fin v) ∧ 0 <= v ∧ v <= 1.
Proof.
  intros Hk Ha Hp.
  destruct (mapk_scores actualLists predictedLists k ltac:(lia))
    as (scores & Hall & ->).
  assert (scores ≠ []) as Hne.
  { intros ->. apply Forall2_length in Hall.
    destruct actualLists, predictedLists; done. }
  rewrite np_mean_finite by done. eexists. split; [done|].
  assert (Forall (fun s => 0 <= s ∧ s <= 1) scores) as Hrange.
  { apply Forall_forall. intros s Hs.
    apply list_elem_of_lookup_1 in Hs as [i Hi].
    destruct (Forall2_lookup_r _ _ _ _ _ Hall Hi) as (ap & _ & Hap).
    by eapply apk_unit_interval. }
  destruct (Qsum_bounds scores Hrange) as [H0 H1].
  unfold arithmetic_mean. apply Qdiv_unit_interval; [done..|].
  change 0 with (inject_Z 0). rewrite <- Zlt_Qlt. unfold len.
  destruct scores; [done|simpl length; lia].
Qed.

(** X9. With [k = 0], [mapk] raises ZeroDivisionError as soon as one of
    the paired [actual] lists is not empty. *)
Theorem mapk_zero_k actualLists predictedLists (i : nat)
    (actual predicted : list ID) :
  actualLists !! i = Some actual ->
  predictedLists !! i = Some predicted ->
  actual ≠ [] ->
  mapk actualLists predictedLists 0 = Raise ZeroDivisionError.
Proof.
  intros Ha Hp Hne. unfold mapk.
  rewrite (comprehension_raises _ _ ZeroDivisionError (actual, predicted)).
  - done.
  - apply (list_elem_of_lookup_2 _ i), lookup_zip_with_Some. by exists actual, predicted.
  - by apply apk_k_zero.
  - intros [a p] _. simpl. destruct (decide (a = [])) as [->|Hane].
    + right. eexists. apply apk_nil.
    + left. by apply apk_k_zero.
Qed.

End MeanAveragePrecisionMore.

(** ** The percentage errors *)

Lemma elementwise_mismatch f (x y : list float64) :
  length x ≠ length y -> length x ≠ 1%nat -> length y ≠ 1%nat ->
  elementwise f x y = Raise ValueError.
Proof.
  intros Hxy Hx Hy. unfold elementwise. rewrite decide_False by done.
  destruct x as [|a [|a' x]], y as [|b [|b' y]]; simpl in *; done.
Qed.

Lemma mape_terms_list (y_true y_pred : list Q) :
  zip_with np_div
    (map np_abs (zip_with np_sub (map Fin y_true) (map Fin y_pred)))
    (map Fin y_true)
  = zip_with mape_term y_true y_pred.
Proof.
  revert y_pred.
  induction y_true as [|t y_true IH]; intros [|p y_pred]; try done.
  simpl. by rewrite IH.
Qed.

Lemma mape_terms (y_true y_pred : list Q) :
  length y_true = length y_pred ->
  mean_absolute_percentage_error y_true y_pred
  = Ok (np_mean (zip_with mape_term y_true y_pred)).
Proof.
  intros Hlen. unfold mean_absolute_percentage_error.
  rewrite elementwise_same_length by (by rewrite !length_map).
  simpl. rewrite elementwise_same_length.
  2: { rewrite !length_map, length_zip_with_l_eq; by rewrite !length_map. }
  simpl. by rewrite mape_terms_list.
Qed.

Lemma smape_terms_list (y_true y_pred : list Q) :
  zip_with np_div
    (map np_abs (zip_with np_sub (map Fin y_true) (map Fin y_pred)))
    (map (fun v => np_add v (Fin 1))
         (zip_with np_add (map Fin y_true) (map Fin y_pred)))
  = zip_with smape_term y_true y_pred.
Proof.
  revert y_pred.
  induction y_true as [|t y_true IH]; intros [|p y_pred]; try done.
  simpl. by rewrite IH.
Qed.

Lemma smape_terms (y_true y_pred : list Q) :
  length y_true = length y_pred ->
  symmetric_mean_absolute_percentage_error y_true y_pred
  = Ok (np_mean (zip_with smape_term y_true y_pred)).
Proof.
  intros Hlen. unfold symmetric_mean_absolute_percentage_error.
  rewrite !elementwise_same_length by (by rewrite !length_map).
  simpl. rewrite elementwise_same_length.
  2: { rewrite !length_map, !length_zip_with_l_eq; by rewrite !length_map. }
  simpl. by rewrite smape_terms_list.
Qed.

Lemma negative_nonneg (a : Q) : 0 <= a -> negative a = false.
Proof.
  intros Ha. unfold negative. destruct (Qcompare_spec a 0); try done. lra.
Qed.

Lemma np_add_inf_or_nan (a b : float64) :
  a ≠ NInf -> b ≠ NInf ->
  (a = PInf ∨ a = NaN) ∨ (b = PInf ∨ b = NaN) ->
  np_add a b = PInf ∨ np_add a b = NaN.
Proof.
  destruct a, b; simpl; intros Ha Hb [[?|?]|[?|?]]; try done; auto.
Qed.

Lemma np_sum_no_ninf (l : list float64) :
  Forall (fun x => x ≠ NInf) l -> np_sum l ≠ NInf.
Proof.
  induction 1 as [|x l Hx _ IH]; [done|].
  change (np_sum (x :: l)) with (np_add x (np_sum l)).
  destruct x, (np_sum l); done.
Qed.

Lemma np_sum_inf_or_nan (l : list float64) (x : float64) :
  Forall (fun y => y ≠ NInf) l ->
  x ∈ l -> x = PInf ∨ x = NaN ->
  np_sum l = PInf ∨ np_sum l = NaN.
Proof.
  intros Hall Hin Hx. induction Hall as [|y l Hy Hall IH]; [inversion Hin|].
  change (np_sum (y :: l)) with (np_add y (np_sum l)).
  apply np_add_inf_or_nan; [done|by apply np_sum_no_ninf|].
  apply elem_of_cons in Hin as [<-|Hin]; [by left|]. right. by apply IH.
Qed.

Lemma mape_term_unfold (t p : Q) :
  mape_term t p = np_div (Fin (Qabs (t + - p))) (Fin t).
Proof. reflexivity. Qed.

Lemma smape_term_unfold (t p : Q) :
  smape_term t p = np_div (Fin (Qabs (t + - p))) (Fin (t + p + 1)).
Proof. reflexivity. Qed.

Lemma mape_term_no_ninf (t p : Q) : mape_term t p ≠ NInf.
Proof.
  rewrite mape_term_unfold, np_div_finite. destruct (Qeq_bool t 0); [|done].
  destruct (Qeq_bool _ 0); [done|].
  by rewrite negative_nonneg by apply Qabs_nonneg.
Qed.

Lemma mape_term_zero_truth (t p : Q) :
  t == 0 -> mape_term t p = PInf ∨ mape_term t p = NaN.
Proof.
  intros Ht. rewrite mape_term_unfold, np_div_finite.
  apply Qeq_bool_iff in Ht. rewrite Ht.
  destruct (Qeq_bool (Qabs _) 0); [by right|].
  rewrite negative_nonneg by apply Qabs_nonneg. by left.
Qed.

(** X13. A zero among the true values makes the percentage error
    non-finite: [mean_absolute_percentage_error] returns an infinity or
    NaN, never a finite number, and it does not raise. *)
Theorem mape_zero_truth (y_true y_pred : list Q) (i : nat) (t : Q) :
  length y_true = length y_pred ->
  y_true !! i = Some t -> t == 0 ->
  exists v,
    mean_absolute_percentage_error y_true y_pred = Ok v ∧
    (v = PInf ∨ v = NInf ∨ v = NaN).
Proof.
  intros Hlen Hi Ht. rewrite mape_terms by done.
  destruct (lookup_lt_is_Some_2 y_pred i) as [p Hp].
  { rewrite <- Hlen. by eapply lookup_lt_Some. }
  eexists. split; [done|].
  destruct (np_sum_inf_or_nan (zip_with mape_term y_true y_pred)
              (mape_term t p)) as [Hs|Hs].
  - apply Forall_forall. intros x (t' & p' & -> & _)%elem_of_zip_with.
    apply mape_term_no_ninf.
  - apply (list_elem_of_lookup_2 _ i), lookup_zip_with_Some. by exists t, p.
  - by apply mape_term_zero_truth.
  - left. unfold np_mean. rewrite Hs. simpl.
    by rewrite negative_nonneg by apply inject_Z_nat_nonneg.
  - right. right. unfold np_mean. by rewrite Hs.
Qed.

Lemma mape_perfect_sum (y : list Q) :
  Forall (fun t => ~ t == 0) y ->
  exists s, np_sum (zip_with mape_term y y) = Fin s ∧ s == 0.
Proof.
  induction 1 as [|t y Ht _ (s & Hs & Hz)].
  { by exists 0. }
  simpl zip_with.
  change (np_sum (mape_term t t :: zip_with mape_term y y))
    with (np_add (mape_term t t) (np_sum (zip_with mape_term y y))).
  rewrite Hs, mape_term_unfold, np_div_finite.
  rewrite (Qeq_bool_false_neq _ Ht).
  eexists. split; [reflexivity|]. rewrite Hz.
  assert (t + - t == 0) as -> by ring.
  change (Qabs 0) with 0. field. done.
Qed.

(** X14. Predictions equal to the true values, none of them zero, have a
    percentage error of 0. *)
Theorem mape_perfect (y : list Q) :
  y ≠ [] -> Forall (fun t => ~ t == 0) y ->
  exists v, mean_absolute_percentage_error y y = Ok (Fin v) ∧ v == 0.
Proof.
  intros Hne Hnz. rewrite mape_terms by done.
  destruct (mape_perfect_sum y Hnz) as (s & Hs & Hz).
  unfold np_mean. rewrite Hs. simpl.
  rewrite Qeq_bool_false_pos.
  - eexists. split; [done|]. rewrite Hz. unfold Qdiv. ring.
  - change 0 with (inject_Z 0). rewrite <- Zlt_Qlt. unfold len.
    rewrite length_zip_with_l_eq by done. destruct y; [done|simpl; lia].
Qed.

Lemma smape_term_range (t p : Q) :
  0 <= t -> 0 <= p ->
  exists q, smape_term t p = Fin q ∧ 0 <= q ∧ q < 1.
Proof.
  intros Ht Hp. rewrite smape_term_unfold, np_div_finite.
  rewrite Qeq_bool_false_pos by lra.
  eexists. split; [reflexivity|].
  pose proof (Qabs_nonneg (t + - p)) as Habs.
  assert (Qabs (t + - p) <= t + p) as Hle.
  { apply Qabs_Qle_condition. split; lra. }
  split.
  - apply Qle_shift_div_l; lra.
  - apply Qlt_shift_div_r; lra.
Qed.

Lemma smape_sum_range (y_true y_pred : list Q) :
  Forall (Qle 0) y_true -> Forall (Qle 0) y_pred ->
  exists s,
    np_sum (zip_with smape_term y_true y_pred) = Fin s ∧
    0 <= s ∧
    s <= inject_Z (len (zip_with smape_term y_true y_pred)) ∧
    (0 < inject_Z (len (zip_with smape_term y_true y_pred)) ->
     s < inject_Z (len (zip_with smape_term y_true y_pred))).
Proof.
  intros Ht. revert y_pred.
  induction Ht as [|t y_true Ht _ IH]; intros y_pred Hp.
  { exists 0. simpl. change (inject_Z (len [])) with 0. repeat split; lra. }
  destruct Hp as [|p y_pred Hp Hps].
  { exists 0. simpl. change (inject_Z (len [])) with 0. repeat split; lra. }
  destruct (IH y_pred Hps) as (s & Hs & Hs0 & Hs1 & _).
  destruct (smape_term_range t p Ht Hp) as (q & Hq & Hq0 & Hq1).
  simpl zip_with.
  change (np_sum (smape_term t p :: zip_with smape_term y_true y_pred))
    with (np_add (smape_term t p)
            (np_sum (zip_with smape_term y_true y_pred))).
  rewrite Hs, Hq. exists (q + s). rewrite len_cons.
  repeat split; try done; lra.
Qed.

(** X16. On floating-point true values and predictions that are not
    negative, the symmetric percentage error is a finite number of the
    closed interval from 0 to 1. *)
Theorem smape_range (y_true y_pred : list Q) :
  length y_true = length y_pred -> y_true ≠ [] ->
  Forall (Qle 0) y_true -> Forall (Qle 0) y_pred ->
  exists v,
    symmetric_mean_absolute_percentage_error y_true y_pred = Ok (Fin v) ∧
    0 <= v ∧ v <= 1.
Proof.
  intros Hlen Hne Ht Hp. rewrite smape_terms by done.
  destruct (smape_sum_range y_true y_pred Ht Hp) as (s & Hs & Hs0 & Hs1 & _).
  assert (0 < inject_Z (len (zip_with smape_term y_true y_pred))) as Hn.
  { change 0 with (inject_Z 0). rewrite <- Zlt_Qlt. unfold len.
    rewrite length_zip_with_l_eq by done. destruct y_true; [done|simpl; lia]. }
  unfold np_mean. rewrite Hs, np_div_finite, Qeq_bool_false_pos by done.
  eexists. split; [done|]. by apply Qdiv_unit_interval.
Qed.

Lemma smape_term_sym (t p : Q) : np_eq (smape_term t p) (smape_term p t).
Proof.
  rewrite !smape_term_unfold. apply np_div_proper.
  - change (Qabs (t + - p) == Qabs (p + - t)).
    rewrite <- (Qabs_opp (p + - t)).
    assert (- (p + - t) == t + - p) as -> by ring. reflexivity.
  - change (t + p + 1 == p + t + 1). ring.
Qed.

Lemma np_sum_proper (l l' : list float64) :
  Forall2 np_eq l l' -> np_eq (np_sum l) (np_sum l').
Proof.
  induction 1 as [|x x' l l' Hx _ IH]; [reflexivity|].
  change (np_eq (np_add x (np_sum l)) (np_add x' (np_sum l'))).
  by apply np_add_proper.
Qed.

Lemma smape_terms_sym (y_true y_pred : list Q) :
  Forall2 np_eq (zip_with smape_term y_true y_pred)
                (zip_with smape_term y_pred y_true).
Proof.
  revert y_pred. induction y_true as [|t y_true IH]; intros [|p y_pred];
    simpl; constructor; [apply smape_term_sym|apply IH].
Qed.

(** X17. The symmetric percentage error does not tell the true values
    from the predictions: swapping the two arguments gives the same
    value. *)
Theorem smape_symmetric (y_true y_pred : list Q) :
  length y_true = length y_pred ->
  exists v v',
    symmetric_mean_absolute_percentage_error y_true y_pred = Ok v ∧
    symmetric_mean_absolute_percentage_error y_pred y_true = Ok v' ∧
    np_eq v v'.
Proof.
  intros Hlen. rewrite !smape_terms by done.
  do 2 eexists. split; [done|]. split; [done|].
  pose proof (smape_terms_sym y_true y_pred) as Hsym.
  unfold np_mean. apply np_div_proper; [by apply np_sum_proper|].
  simpl. unfold len. by rewrite (Forall2_length _ _ _ Hsym).
Qed.

Section AdapterErrors.
Variables np_sqrt np_log1p : float64 -> float64.

(** X15. Labels and predictions of different lengths, neither of them a
    single number, cannot be paired: [mape_lgb], [smape_lgb] and
    [rmsle_xgb] raise numpy's ValueError. *)
Theorem adapters_reject_mismatch (preds : list Q) (dtrain : Dataset) :
  length preds ≠ length (get_label dtrain) ->
  length preds ≠ 1%nat ->
  length (get_label dtrain) ≠ 1%nat ->
  mape_lgb preds dtrain = Raise ValueError ∧
  smape_lgb preds dtrain = Raise ValueError ∧
  rmsle_xgb np_sqrt np_log1p preds dtrain = Raise ValueError.
Proof.
  intros Hlen Hp Hl.
  unfold mape_lgb, smape_lgb, rmsle_xgb, mean_absolute_percentage_error,
    symmetric_mean_absolute_percentage_error.
  rewrite !elementwise_mismatch by (rewrite !length_map; done).
  done.
Qed.

(** X18. [rmsle_xgb] counts a negative label or prediction as zero: it
    returns on the inputs what it returns on the inputs with every
    negative number replaced by 0. *)
Theorem rmsle_xgb_clips_negatives (preds : list Q) (dtrain : Dataset) :
  rmsle_xgb np_sqrt np_log1p preds dtrain
  = rmsle_xgb np_sqrt np_log1p (map clip_at_zero preds)
      {| get_label := map clip_at_zero (get_label dtrain) |}.
Proof.
  unfold rmsle_xgb. simpl get_label. rewrite !map_map.
  assert (forall a, np_fmax (Fin 0) (Fin (clip_at_zero a))
                    = np_fmax (Fin 0) (Fin a)) as Hclip.
  { intros a. unfold clip_at_zero. simpl.
    destruct (Qle_bool 0 a) eqn:E; [by rewrite E|done]. }
  assert (forall l : list Q,
            map (fun a => np_log1p (np_fmax (Fin 0) (Fin (clip_at_zero a)))) l
            = map (fun a => np_log1p (np_fmax (Fin 0) (Fin a))) l) as Hmap.
  { intros l. apply map_ext. intros a. by rewrite Hclip. }
  by rewrite !Hmap.
Qed.

End AdapterErrors.

Section GiniAdapterFacts.
Context {sorting : ArgSort}.

(** X19. Of two-dimensional predictions the Gini adapters read column 1
    only, and they raise IndexError when there is no such column. *)
Theorem gini_adapters_two_columns (ncols : nat) (rows : list (list Q))
    (dtrain : Dataset) :
  ((1 < ncols)%nat ->
   gini_xgb (Arr2 ncols rows) dtrain
   = gini_xgb (Arr1 (map (fun r => nth 1 r 0) rows)) dtrain ∧
   gini_lgb (Arr2 ncols rows) dtrain
   = gini_lgb (Arr1 (map (fun r => nth 1 r 0) rows)) dtrain) ∧
  ((ncols <= 1)%nat ->
   gini_xgb (Arr2 ncols rows) dtrain = Raise IndexError ∧
   gini_lgb (Arr2 ncols rows) dtrain = Raise IndexError).
Proof.
  split.
  - intros Hc. unfold gini_xgb, gini_lgb.
    by rewrite gini_normalizedc_second_column.
  - intros Hc. unfold gini_xgb, gini_lgb, gini_normalizedc, column.
    rewrite bool_decide_eq_false_2 by lia. done.
Qed.

End GiniAdapterFacts.

(** ** The further properties on concrete inputs *)

Lemma apk_zero_k_division_error_witness :
  [1; 2]%Z ≠ [] ∧ apk [1; 2]%Z [2; 3]%Z 0 = Raise ZeroDivisionError.
Proof.
  split; [discriminate|].
  apply (apk_zero_k_division_error [1; 2]%Z [2; 3]%Z). discriminate.
Defined.

Lemma apk_negative_k_witness :
  (-2 < 0)%Z ∧ [1; 2; 3]%Z ≠ [] ∧
  exists v, apk [1; 2; 3]%Z [1; 7; 3; 4]%Z (-2) = Ok v ∧ v <= 0.
Proof.
  split; [lia|]. split; [discriminate|].
  apply (apk_negative_k [1; 2; 3]%Z [1; 7; 3; 4]%Z (-2)); [lia|discriminate].
Defined.

Lemma apk_actual_order_witness :
  [1; 2]%Z ≡ₚ [2; 1]%Z ∧
  apk [1; 2]%Z [2; 5; 1]%Z 3 = apk [2; 1]%Z [2; 5; 1]%Z 3.
Proof.
  split; [apply perm_swap|].
  apply (apk_actual_order [1; 2]%Z [2; 1]%Z [2; 5; 1]%Z 3), perm_swap.
Defined.

Lemma apk_beyond_k_ignored_witness :
  (0 <= 2 <= len [1; 2]%Z)%Z ∧
  apk [2; 9]%Z ([1; 2] ++ [9])%Z 2 = apk [2; 9]%Z [1; 2]%Z 2.
Proof.
  split; [unfold len; simpl; lia|].
  apply (apk_beyond_k_ignored [2; 9]%Z [1; 2]%Z [9]%Z 2).
  unfold len. simpl. lia.
Defined.

Lemma apk_positive_iff_relevant_witness :
  (1 <= 2)%Z ∧ [3]%Z ≠ [] ∧
  exists v,
    apk [3]%Z [1; 2; 3]%Z 2 = Ok v ∧
    (0 < v ↔ exists x, x ∈ take (Z.to_nat 2) [1; 2; 3]%Z ∧ x ∈ [3]%Z).
Proof.
  split; [lia|]. split; [discriminate|].
  apply (apk_positive_iff_relevant [3]%Z [1; 2; 3]%Z 2); [lia|discriminate].
Defined.

Lemma apk_relevant_first_witness :
  NoDup [1; 2; 3]%Z ∧ [1; 2; 3]%Z ≠ [] ∧ [2; 1; 3]%Z ≡ₚ [1; 2; 3]%Z ∧
  (len [1; 2; 3]%Z <= 5)%Z ∧
  value_is (apk [1; 2; 3]%Z ([2; 1; 3] ++ [3; 8])%Z 5) 1.
Proof.
  assert (NoDup [1; 2; 3]%Z) as Hnd.
  { apply (bool_decide_unpack (NoDup [1; 2; 3]%Z)). vm_compute. exact I. }
  split; [exact Hnd|]. split; [discriminate|].
  split; [apply perm_swap|]. split; [unfold len; simpl; lia|].
  apply (apk_relevant_first [1; 2; 3]%Z [2; 1; 3]%Z [3; 8]%Z 5);
    [exact Hnd|discriminate|apply perm_swap|unfold len; simpl; lia].
Defined.

Lemma apk_append_no_gain_witness :
  (len [1; 2]%Z < 5)%Z ∧ (1%Z ∉ [2; 3]%Z ∨ 1%Z ∈ [1; 2]%Z) ∧
  apk [2; 3]%Z ([1; 2] ++ [1])%Z 5 = apk [2; 3]%Z [1; 2]%Z 5.
Proof.
  split; [unfold len; simpl; lia|]. split; [right; left|].
  apply (apk_append_no_gain [2; 3]%Z [1; 2]%Z 1%Z 5);
    [unfold len; simpl; lia|right; left].
Defined.

Lemma mapk_in_unit_interval_witness :
  (1 <= 2)%Z ∧ [[1; 2]; [3]]%Z ≠ [] ∧ [[1; 3]]%Z ≠ [] ∧
  exists v, mapk [[1; 2]; [3]]%Z [[1; 3]]%Z 2 = Ok (Fin v) ∧ 0 <= v ∧ v <= 1.
Proof.
  split; [lia|]. split; [discriminate|]. split; [discriminate|].
  apply (mapk_in_unit_interval [[1; 2]; [3]]%Z [[1; 3]]%Z 2);
    [lia|discriminate|discriminate].
Defined.

Lemma mapk_zero_k_witness :
  [[]; [3]]%Z !! 1%nat = Some [3]%Z ∧
  [[1]; [3; 4]]%Z !! 1%nat = Some [3; 4]%Z ∧
  [3]%Z ≠ [] ∧
  mapk [[]; [3]]%Z [[1]; [3; 4]]%Z 0 = Raise ZeroDivisionError.
Proof.
  split; [reflexivity|]. split; [reflexivity|]. split; [discriminate|].
  apply (mapk_zero_k [[]; [3]]%Z [[1]; [3; 4]]%Z 1 [3]%Z [3; 4]%Z);
    [reflexivity|reflexivity|discriminate].
Defined.

Lemma mape_zero_truth_witness :
  length [2; 0] = length [1; 1] ∧ [2; 0] !! 1%nat = Some 0 ∧ 0 == 0 ∧
  exists v,
    mean_absolute_percentage_error [2; 0] [1; 1] = Ok v ∧
    (v = PInf ∨ v = NInf ∨ v = NaN).
Proof.
  split; [reflexivity|]. split; [reflexivity|]. split; [reflexivity|].
  apply (mape_zero_truth [2; 0] [1; 1] 1 0); reflexivity.
Defined.

Lemma mape_perfect_witness :
  [2; -1] ≠ [] ∧ Forall (fun t => ~ t == 0) [2; -1] ∧
  exists v, mean_absolute_percentage_error [2; -1] [2; -1] = Ok (Fin v) ∧ v == 0.
Proof.
  assert (Forall (fun t => ~ t == 0) [2; -1]) as Hnz.
  { repeat constructor; intros Hz; discriminate Hz. }
  split; [discriminate|]. split; [exact Hnz|].
  apply (mape_perfect [2; -1]); [discriminate|exact Hnz].
Defined.

Lemma adapters_reject_mismatch_witness :
  length [1; 2; 3] ≠ length (get_label {| get_label := [1; 2] |}) ∧
  length [1; 2; 3] ≠ 1%nat ∧
  length (get_label {| get_label := [1; 2] |}) ≠ 1%nat ∧
  mape_lgb [1; 2; 3] {| get_label := [1; 2] |} = Raise ValueError ∧
  smape_lgb [1; 2; 3] {| get_label := [1; 2] |} = Raise ValueError ∧
  rmsle_xgb (fun x => x) (fun x => x) [1; 2; 3] {| get_label := [1; 2] |}
  = Raise ValueError.
Proof.
  split; [discriminate|]. split; [discriminate|]. split; [discriminate|].
  apply (adapters_reject_mismatch (fun x => x) (fun x => x)
           [1; 2; 3] {| get_label := [1; 2] |}); discriminate.
Defined.

Lemma smape_range_witness :
  length [1; 0] = length [3; 2] ∧ [1; 0] ≠ [] ∧
  Forall (Qle 0) [1; 0] ∧ Forall (Qle 0) [3; 2] ∧
  exists v,
    symmetric_mean_absolute_percentage_error [1; 0] [3; 2] = Ok (Fin v) ∧
    0 <= v ∧ v <= 1.
Proof.
  assert (Forall (Qle 0) [1; 0]) as Ht.
  { repeat constructor; discriminate. }
  assert (Forall (Qle 0) [3; 2]) as Hp.
  { repeat constructor; discriminate. }
  split; [reflexivity|]. split; [discriminate|].
  split; [exact Ht|]. split; [exact Hp|].
  apply (smape_range [1; 0] [3; 2]);
    [reflexivity|discriminate|exact Ht|exact Hp].
Defined.

Lemma smape_symmetric_witness :
  length [1; 0] = length [3; 2] ∧
  exists v v',
    symmetric_mean_absolute_percentage_error [1; 0] [3; 2] = Ok v ∧
    symmetric_mean_absolute_percentage_error [3; 2] [1; 0] = Ok v' ∧
    np_eq v v'.
Proof.
  split; [reflexivity|]. apply (smape_symmetric [1; 0] [3; 2]). reflexivity.
Defined.
